(** * LIFX Control Panel: the colour-following thread runner

    A shallow embedding of [lifx_control_panel/utilities/color_thread.py]:
    the two screen samplers ([avg_screen_color], [dominant_screen_color]),
    the stoppable thread ([ColorThread]) and the runner that owns one
    ([ColorThreadRunner] with [match_color], [start], [stop]).

    Python integers are [Z], Python floats are IEEE binary64 ([float]),
    Python lists are [list]; exceptions travel in a small state-and-error
    monad whose state survives a raise, as Python's does. *)

From Stdlib Require Import ZArith Lia Floats.PrimFloat.
From stdpp Require Import base list strings.

Local Open Scope string_scope.
Local Open Scope list_scope.

(** ** Exceptions *)

(** The exception classes that matter to the handlers of the module:
    [OSError] with two of its subclasses, [RuntimeError] (raised by
    [Thread.start] on a second start), the two exits that the patched
    [Thread.run] re-raises, and errors of other classes that a loop body can
    meet, among them the [WorkflowException] of the bulb library. *)
Inductive exn : Type :=
  | OSError
  | ConnectionError
  | TimeoutError
  | RuntimeError
  | ValueError
  | KeyError
  | IndexError
  | TypeError
  | WorkflowException
  | KeyboardInterrupt
  | SystemExit.

(** [except OSError:] catches the class and its subclasses. *)
Definition isinstance_OSError (e : exn) : bool :=
  match e with
  | OSError | ConnectionError | TimeoutError => true
  | _ => false
  end.

(** [except RuntimeError:] *)
Definition isinstance_RuntimeError (e : exn) : bool :=
  match e with
  | RuntimeError => true
  | _ => false
  end.

(** [except (KeyboardInterrupt, SystemExit):] *)
Definition isinstance_exit (e : exn) : bool :=
  match e with
  | KeyboardInterrupt | SystemExit => true
  | _ => false
  end.

(** What a call gives back: a value, or a raised exception. *)
Inductive result (A : Type) : Type :=
  | Return (a : A)
  | Raise (e : exn).
Arguments Return {A} a.
Arguments Raise {A} e.

(** ** Data *)

(** An HSBK colour as the module handles it: a Python list
    [[hue, saturation, brightness, kelvin]] of integers. *)
Definition Color : Type := list Z.

(** [seq[i]]: [IndexError] out of range. *)
Definition getitem {A : Type} (l : list A) (i : nat) : result A :=
  match l !! i with
  | Some x => Return x
  | None => Raise IndexError
  end.

(** [seq[i] = x]: [IndexError] out of range. *)
Definition setitem {A : Type} (l : list A) (i : nat) (x : A) : result (list A) :=
  if decide (i < length l)%nat then Return (<[i := x]> l) else Raise IndexError.

(** How a thread's [run] ended: its target returned, or raised an exception
    that the patched [run] handed to [sys.excepthook], or raised one of the
    two exits that it re-raises. *)
Inductive ending : Type :=
  | Returned
  | Excepthook (e : exn)
  | Reraised (e : exn).

(** Life of a [threading.Thread]: not yet started, started and about to
    enter its target, inside the target's [while] loop, or over. *)
Inductive stage : Type :=
  | Unstarted
  | Entered
  | Looping
  | Exited (k : ending).

(** [class ColorThread(threading.Thread)]: the [_stop] event and the
    thread's own life. *)
Record ColorThread : Type := {
  _stop : bool;
  life : stage
}.

(** One [bulb.set_color(color, duration=..., rapid=...)] call, with what the
    device answered. *)
Record set_color_call : Type := {
  color : Color;
  duration : float;
  rapid : bool;
  raised : option exn
}.

Inductive level : Type := DEBUG | INFO | ERROR.

(** The [AverageColor] section of [config] as its readers see it at one
    moment: [float(config["AverageColor"]["duration"])] and
    [int(config["AverageColor"]["brightnessoffset"])], each a value or the
    exception of the lookup or of the conversion. *)
Record Config : Type := {
  cfg_duration : result float;
  cfg_brightnessoffset : result Z;
  (** Modelled from the spec: the [continuous] entry of LoopConfig that the
      spec places in the configuration source.  No reader of the module
      consults it. *)
  cfg_continuous : bool
}.

(** What the outside offers to one turn of the loop: the colour function
    applied to the screen of that moment, the configuration of that moment
    and the answer of the device to a push. *)
Record Tick : Type := {
  color_function : Color -> result Color;
  config : Config;
  bulb_set_color : Color -> float -> bool -> option exn
}.

(** The state the operations act on: the attributes of one
    [ColorThreadRunner] ([thread] is a reference into [threads], the thread
    objects created so far, so that the controller and every worker see the
    same object), the calls received by the bulb and the log records. *)
Record World : Type := {
  thread : nat;
  prev_color : Color;
  continuous : bool;
  threads : list ColorThread;
  sent : list set_color_call;
  log : list (level * string)
}.

(** ** The monad: state that survives a raise *)

Definition py (A : Type) : Type := World -> World * result A.

Definition ret {A : Type} (a : A) : py A := fun s => (s, Return a).

Definition lift {A : Type} (r : result A) : py A := fun s => (s, r).

Definition bind {A B : Type} (m : py A) (k : A -> py B) : py B :=
  fun s =>
    match m s with
    | (s', Return a) => k a s'
    | (s', Raise e) => (s', Raise e)
    end.

Notation "x <- m ;; k" := (bind m (fun x => k))
  (at level 100, m at next level, right associativity).
Notation "m ;; k" := (bind m (fun _ => k))
  (at level 100, right associativity).

(** [try: m  except <class>: h] *)
Definition try_except {A : Type} (m : py A) (class : exn -> bool) (h : py A) : py A :=
  fun s =>
    match m s with
    | (s', Return a) => (s', Return a)
    | (s', Raise e) => if class e then h s' else (s', Raise e)
    end.

Definition gets {A : Type} (f : World -> A) : py A := fun s => (s, Return (f s)).

Definition modify (f : World -> World) : py unit := fun s => (f s, Return tt).

(** ** Field updates *)

Definition with_thread (n : nat) (s : World) : World :=
  {| thread := n; prev_color := prev_color s; continuous := continuous s;
     threads := threads s; sent := sent s; log := log s |}.

Definition with_prev_color (c : Color) (s : World) : World :=
  {| thread := thread s; prev_color := c; continuous := continuous s;
     threads := threads s; sent := sent s; log := log s |}.

Definition with_threads (ts : list ColorThread) (s : World) : World :=
  {| thread := thread s; prev_color := prev_color s; continuous := continuous s;
     threads := ts; sent := sent s; log := log s |}.

Definition with_sent (cs : list set_color_call) (s : World) : World :=
  {| thread := thread s; prev_color := prev_color s; continuous := continuous s;
     threads := threads s; sent := cs; log := log s |}.

Definition with_log (l : list (level * string)) (s : World) : World :=
  {| thread := thread s; prev_color := prev_color s; continuous := continuous s;
     threads := threads s; sent := sent s; log := l |}.

Definition logger (lv : level) (msg : string) : py unit :=
  modify (fun s => with_log (log s ++ [(lv, msg)]) s).

(** ** ColorThread *)

Definition set_stop (t : ColorThread) : ColorThread :=
  {| _stop := true; life := life t |}.

Definition set_life (g : stage) (t : ColorThread) : ColorThread :=
  {| _stop := _stop t; life := g |}.

(** [ColorThread(target=self.match_color, args=(self.bulb,))]: a new thread
    object, its event clear. *)
Definition new_ColorThread : ColorThread :=
  {| _stop := false; life := Unstarted |}.

(** [t.stopped()] for the thread object at reference [n]. *)
Definition stopped (n : nat) (s : World) : bool :=
  match threads s !! n with
  | Some t => _stop t
  | None => false
  end.

(** [t.stop()] *)
Definition ColorThread_stop (n : nat) : py unit :=
  modify (fun s => with_threads (alter set_stop n (threads s)) s).

(** [threading.Thread.start]: a thread object starts once. *)
Definition Thread_start (n : nat) : py unit :=
  fun s =>
    match threads s !! n with
    | Some t =>
        match life t with
        | Unstarted => (with_threads (<[n := set_life Entered t]> (threads s)) s, Return tt)
        | _ => (s, Raise RuntimeError)
        end
    | None => (s, Raise RuntimeError)
    end.

(** ** ColorThreadRunner *)

(** [get_duration] *)
Definition get_duration (c : Config) : py float := lift (cfg_duration c).

(** [get_brightness_offset] *)
Definition get_brightness_offset (c : Config) : py Z := lift (cfg_brightnessoffset c).

(** [ColorThreadRunner.stop]: [self.thread.stop()]. *)
Definition stop : py unit :=
  n <- gets thread ;;
  ColorThread_stop n.

(** [bulb.set_color(color, duration=d, rapid=r)]: the call reaches the bulb
    and is recorded, then the device's answer decides. *)
Definition set_color (t : Tick) (c : Color) (d : float) (r : bool) : py unit :=
  fun s =>
    let answer := bulb_set_color t c d r in
    let call := {| color := c; duration := d; rapid := r; raised := answer |} in
    (with_sent (sent s ++ [call]) s,
     match answer with
     | None => Return tt
     | Some e => Raise e
     end).

(** How the [try] statement of the loop body is left: falling through to
    the statement after it, or by [continue]. *)
Inductive flow : Type := Fallthrough | Continue.

(** The statements inside the [try] of [match_color]. *)
Definition match_color_attempt (t : Tick) : py flow :=
  initial_color <- gets prev_color ;;
  color <- lift (color_function t initial_color) ;;
  brightness <- lift (getitem color 2) ;;
  offset <- get_brightness_offset (config t) ;;
  color <- lift (setitem color 2 (Z.min (brightness + offset) 65535)) ;;
  seconds <- get_duration (config t) ;;
  rapid <- gets continuous ;;
  set_color t color (seconds * 1000)%float rapid ;;
  modify (with_prev_color color) ;;
  ret Fallthrough.

(** The [try ... except OSError] statement of [match_color]. *)
Definition match_color_try (t : Tick) : py flow :=
  try_except
    (match_color_attempt t)
    isinstance_OSError
    (logger INFO "Hit an os error" ;;
     ret Continue).

(** One pass through the body of the [while] loop. *)
Definition iteration (t : Tick) : py unit :=
  f <- match_color_try t ;;
  match f with
  | Continue => ret tt
  | Fallthrough =>
      c <- gets continuous ;;
      if negb c then stop else ret tt
  end.

(** Whether the loop was left, or the ticks supplied ran out with the
    worker still inside it. *)
Inductive progress : Type := Finished | Pending.

(** [while not self.thread.stopped(): ...] over the ticks the outside
    supplies.  The test reads [self.thread] afresh each time. *)
Fixpoint while_not_stopped (ticks : list Tick) : py progress :=
  match ticks with
  | [] =>
      n <- gets thread ;;
      halt <- gets (stopped n) ;;
      ret (if halt then Finished else Pending)
  | t :: ticks' =>
      n <- gets thread ;;
      halt <- gets (stopped n) ;;
      if halt then ret Finished
      else (iteration t ;; while_not_stopped ticks')
  end.

(** [match_color]: [parent_hsbk] is what
    [self.parent.get_color_values_hsbk()] returns at entry. *)
Definition match_color (parent_hsbk : Color) (ticks : list Tick) : py progress :=
  logger DEBUG "Starting color match." ;;
  modify (with_prev_color parent_hsbk) ;;
  p <- while_not_stopped ticks ;;
  match p with
  | Finished => logger DEBUG "Color match finished." ;; ret Finished
  | Pending => ret Pending
  end.

(** [ColorThreadRunner.start].  [setDaemon(True)] leaves everything that is
    modelled as it is. *)
Definition start : py unit :=
  n <- gets thread ;;
  halt <- gets (stopped n) ;;
  (if halt
   then modify (fun s => with_thread (length (threads s))
                           (with_threads (threads s ++ [new_ColorThread]) s))
   else ret tt) ;;
  try_except
    (n <- gets thread ;;
     Thread_start n ;;
     logger DEBUG "Thread started.")
    isinstance_RuntimeError
    (logger ERROR "Tried to start ColorThread again.").

(** [ColorThreadRunner.__init__]: [parent_hsbk] is
    [parent.get_color_values_hsbk()], [label] the outcome of
    [bulb.get_label()], whose failure of any kind becomes a placeholder. *)
Definition __init__ (parent_hsbk : Color) (continuous_arg : bool) (label : result string) : World :=
  let shown := match label with Return l => l | Raise _ => "<LABEL-ERR>" end in
  {| thread := 0;
     prev_color := parent_hsbk;
     continuous := continuous_arg;
     threads := [new_ColorThread];
     sent := [];
     log := [(INFO, ("Initialized Thread: Bulb: " ++ shown ++ " // Continuous: "
                     ++ (if continuous_arg then "True" else "False"))%string)] |}.

(** ** Threads at work *)

(** Where a thread stands once its target gave [r]: the patched
    [threading.Thread.run] of [install_thread_excepthook] re-raises
    [KeyboardInterrupt] and [SystemExit] and hands every other exception to
    [sys.excepthook]; in each case the thread is over. *)
Definition settle (r : result progress) : stage :=
  match r with
  | Return Pending => Looping
  | Return Finished => Exited Returned
  | Raise e => Exited (if isinstance_exit e then Reraised e else Excepthook e)
  end.

(** Thread object [w] executes [m], a part of its target, and stands where
    that leaves it. *)
Definition act (w : nat) (m : py progress) (s : World) : World :=
  let (s', r) := m s in
  with_threads (alter (set_life (settle r)) w (threads s')) s'.

(** The patched [run] of the thread object [w], whose target is
    [match_color], left alone with the ticks it is given. *)
Definition run (w : nat) (parent_hsbk : Color) (ticks : list Tick) : World -> World :=
  act w (match_color parent_hsbk ticks).

(** The same worker taken one step at a time, so that the controller and
    other workers can act in between: the entry of [match_color], and one
    test of the [while] condition followed by the body. *)
Definition enter (parent_hsbk : Color) : py progress :=
  logger DEBUG "Starting color match." ;;
  modify (with_prev_color parent_hsbk) ;;
  ret Pending.

(** One test of the loop condition and, if it holds, one pass. *)
Definition turn (t : Tick) : py progress :=
  n <- gets thread ;;
  halt <- gets (stopped n) ;;
  if halt then (logger DEBUG "Color match finished." ;; ret Finished)
  else (iteration t ;; ret Pending).

(** What can happen next: the controller calls [start()] or [stop()], or
    the scheduler lets thread [w] enter its target or take a turn. *)
Inductive event : Type :=
  | Start
  | Stop
  | Enter (w : nat) (parent_hsbk : Color)
  | Turn (w : nat) (t : Tick).

(** The life of the thread object at reference [w]. *)
Definition life_of (w : nat) (s : World) : stage :=
  match threads s !! w with
  | Some t => life t
  | None => Unstarted
  end.

(** One event.  A thread that was not started, or is over, is given no
    step. *)
Definition exec (ev : event) (s : World) : World :=
  match ev with
  | Start => fst (start s)
  | Stop => fst (stop s)
  | Enter w parent_hsbk =>
      match life_of w s with
      | Entered => act w (enter parent_hsbk) s
      | _ => s
      end
  | Turn w t =>
      match life_of w s with
      | Looping => act w (turn t) s
      | _ => s
      end
  end.

Definition execs (evs : list event) (s : World) : World :=
  foldl (fun s ev => exec ev s) s evs.

(** ** Observations *)

(** A thread is a live worker from its start to its end. *)
Definition alive (t : ColorThread) : bool :=
  match life t with
  | Entered | Looping => true
  | Unstarted | Exited _ => false
  end.

(** The number of background workers. *)
Definition workers (s : World) : nat := length (List.filter alive (threads s)).

(** The loop states of the specification, read off the thread object that
    [self.thread] refers to. *)
Inductive LoopState : Type := Idle | Running | StopRequested.

Definition loop_state (s : World) : LoopState :=
  match threads s !! thread s with
  | Some t => if alive t then (if _stop t then StopRequested else Running) else Idle
  | None => Idle
  end.

(** The calls that one pass from [s] adds to those the bulb had received. *)
Definition calls_of (t : Tick) (s : World) : list set_color_call :=
  drop (length (sent s)) (sent (fst (iteration t s))).

(** The colour that a pass from [initial_color] would hand to the bulb, and
    the duration, when everything before the call goes through. *)
Definition pushed (t : Tick) (initial_color : Color) : result (Color * float) :=
  match color_function t initial_color with
  | Raise e => Raise e
  | Return sampled =>
      match getitem sampled 2 with
      | Raise e => Raise e
      | Return brightness =>
          match cfg_brightnessoffset (config t) with
          | Raise e => Raise e
          | Return offset =>
              match cfg_duration (config t) with
              | Raise e => Raise e
              | Return seconds =>
                  Return (<[2%nat := Z.min (brightness + offset) 65535]> sampled,
                          (seconds * 1000)%float)
              end
          end
      end
  end.

(** ** Screen samplers *)

(** Failing calls chain as in Python: the first raise ends the function. *)
#[global] Instance result_ret : MRet result := fun A a => Return a.
#[global] Instance result_bind : MBind result :=
  fun A B k r =>
    match r with
    | Return a => k a
    | Raise e => Raise e
    end.

Definition RGB : Type := (Z * Z * Z)%type.

(** A captured picture: its size and its pixels, row after row. *)
Record Image : Type := {
  width : Z;
  height : Z;
  pixels : list RGB
}.

(** [needle in hay] on strings. *)
Fixpoint contains (needle hay : string) : bool :=
  String.prefix needle hay ||
  match hay with
  | EmptyString => false
  | String _ hay' => contains needle hay'
  end.

(** The quantisation of [dominant_screen_color]: ["a0*s0*s1+a1*s0+a2"] with
    [s0 = s1 = 256]. *)
Definition encode (px : RGB) : Z :=
  let '(a0, a1, a2) := px in
  (a0 * 256 * 256 + a1 * 256 + a2)%Z.

(** [np.unravel_index(v, (256, 256, 256))]: [ValueError] for an index
    outside the cube. *)
Definition unravel_index (v : Z) : result RGB :=
  if ((0 <=? v) && (v <? 256 * 256 * 256))%Z
  then Return (v / 65536, (v / 256) mod 256, v mod 256)%Z
  else Raise ValueError.

Definition occurrences (v : Z) (l : list Z) : nat :=
  length (List.filter (Z.eqb v) l).

(** [np.bincount(l).argmax()] on codes that are not negative: the value met
    most often, the least such on a tie; [argmax] of an empty array raises
    [ValueError]. *)
Definition bincount_argmax (l : list Z) : result Z :=
  match l with
  | [] => Raise ValueError
  | x :: _ =>
      Return (foldl (fun best v =>
                       let nb := occurrences best l in
                       let nv := occurrences v l in
                       if (nb <? nv)%nat || ((nb =? nv)%nat && (v <? best)%Z)
                       then v else best)
                    x l)
  end.

(** Modelled from the spec: [lifxlan.utils.RGBtoHSBK], a function of the
    bulb library and not of these sources.  "Convert the resulting RGB to
    device color-space, carrying the kelvin/temperature value forward": the
    tuple (hue, saturation, brightness, temperature), whose first three
    entries the library computes from the pixel ([hsb], left open) and whose
    last is the [temperature] argument. *)
Definition RGBtoHSBK (hsb : RGB -> Z * Z * Z) (rgb : RGB) (temperature : Z) : Color :=
  let '(hue, saturation, brightness) := hsb rgb in
  [hue; saturation; brightness; temperature].

Section ColorSampler.

(** What the samplers take from outside: the default monitor of the
    configuration, [utils.str2list(_, int)], the two captures of [mss],
    the Hamming resize of PIL and the colour conversion of the bulb
    library. *)
Variable DefaultMonitor : string.
Variable str2list : string -> result (list Z).
Variable grab_screen : result Image.
Variable grab : Z -> Z -> Z -> Z -> result Image.
Variable resize_HAMMING : Image -> Z -> Z -> result Image.
Variable hsb : RGB -> Z * Z * Z.

(** [get_monitor_bounds]: [func() or config["AverageColor"]["DefaultMonitor"]]
    ([None] and the empty string are false).  The [lru_cache] in front of
    it is not modelled. *)
Definition get_monitor_bounds (func : option string) : string :=
  match func with
  | Some (String a m) => String a m
  | Some EmptyString | None => DefaultMonitor
  end.

(** [get_screen_as_image] *)
Definition get_screen_as_image : result Image := grab_screen.

(** [get_rect_as_image] *)
Definition get_rect_as_image (bounds : list Z) : result Image :=
  left ← getitem bounds 0;
  top ← getitem bounds 1;
  w ← getitem bounds 2;
  h ← getitem bounds 3;
  grab left top w h.

(** The capture that both samplers begin with:
    [if "full" in monitor: ... else: ...]. *)
Definition screenshot_of (monitor : string) : result Image :=
  if contains "full" monitor
  then get_screen_as_image
  else (bounds ← str2list monitor; get_rect_as_image bounds).

(** [avg_screen_color] *)
Definition avg_screen_color (initial_color : Color) (func_bounds : option string)
  : result Color :=
  let monitor := get_monitor_bounds func_bounds in
  screenshot ← screenshot_of monitor;
  one ← resize_HAMMING screenshot 1 1;
  color ← getitem (pixels one) 0;
  temperature ← getitem initial_color 3;
  mret (RGBtoHSBK hsb color temperature).

(** [dominant_screen_color] *)
Definition dominant_screen_color (initial_color : Color) (func_bounds : option string)
  : result Color :=
  let monitor := get_monitor_bounds func_bounds in
  screenshot ← screenshot_of monitor;
  let downscale_width := (width screenshot / 4)%Z in
  let downscale_height := (height screenshot / 4)%Z in
  screenshot ← resize_HAMMING screenshot downscale_width downscale_height;
  let a1D := encode <$> pixels screenshot in
  v ← bincount_argmax a1D;
  color ← unravel_index v;
  temperature ← getitem initial_color 3;
  mret (RGBtoHSBK hsb color temperature).

End ColorSampler.

(** ** The cache in front of [get_monitor_bounds] *)

(** [@lru_cache(maxsize=32)]: the results of earlier calls, keyed by the
    argument, here the identity of the function object passed as [func];
    the most recently used entry comes first. *)
Definition maxsize : nat := 32.

Fixpoint cache_find (key : nat) (cache : list (nat * string)) : option string :=
  match cache with
  | [] => None
  | (k, v) :: cache' => if decide (k = key) then Some v else cache_find key cache'
  end.

Definition cache_without (key : nat) (cache : list (nat * string)) : list (nat * string) :=
  List.filter (fun entry => negb (fst entry =? key)%nat) cache.

(** [get_monitor_bounds] as the module exports it, behind its cache: a hit
    returns the stored result and makes the entry the most recent; a miss
    runs the body, stores the result in front and drops the least recently
    used entry when that makes more than [maxsize].  [func] is what
    [func()] would return now and [DefaultMonitor] what the configuration
    holds now. *)
Definition get_monitor_bounds_cached (DefaultMonitor : string) (key : nat)
    (func : option string) (cache : list (nat * string)) : list (nat * string) * string :=
  match cache_find key cache with
  | Some v => ((key, v) :: cache_without key cache, v)
  | None =>
      let v := get_monitor_bounds DefaultMonitor func in
      (take maxsize ((key, v) :: cache), v)
  end.

(** A call of [get_monitor_bounds]: the configuration of the moment, the
    function object and what it returns at that moment. *)
Record lookup_call : Type := {
  call_default : string;
  call_key : nat;
  call_func : option string
}.

(** The cache after some calls. *)
Definition cache_after (calls : list lookup_call) (cache : list (nat * string))
  : list (nat * string) :=
  foldl (fun c call =>
           fst (get_monitor_bounds_cached (call_default call) (call_key call)
                  (call_func call) c))
        cache calls.

(** Where the entry of [key] stands in the cache, and what it holds. *)
Fixpoint cache_rank (key : nat) (cache : list (nat * string)) : option (nat * string) :=
  match cache with
  | [] => None
  | (k, v) :: cache' =>
      if decide (k = key) then Some (0%nat, v)
      else match cache_rank key cache' with
           | Some (i, v') => Some (S i, v')
           | None => None
           end
  end.

(** ** Rectangles *)

(** A rectangle as [normalize_rectangles] takes it: (left, top, right,
    bottom); [left_] and [right_] stand for the source's [left] and
    [right]. *)
Definition Rect : Type := (Z * Z * Z * Z)%type.

Definition rect_left (r : Rect) : Z := let '(left_, _, _, _) := r in left_.

Definition rect_top (r : Rect) : Z := let '(_, top, _, _) := r in top.

Definition rect_width (r : Rect) : Z := let '(left_, _, right_, _) := r in (right_ - left_)%Z.

Definition rect_height (r : Rect) : Z := let '(_, top, _, bottom) := r in (bottom - top)%Z.

(** [min(...)] over integers: [ValueError] on an empty sequence. *)
Definition py_min (l : list Z) : result Z :=
  match l with
  | [] => Raise ValueError
  | x :: l' => Return (foldl Z.min x l')
  end.

(** [normalize_rectangles] *)
Definition normalize_rectangles (rects : list Rect) : result (list Rect) :=
  x_min ← py_min (rect_left <$> rects);
  y_min ← py_min (rect_top <$> rects);
  mret ((fun '(left_, top, right_, bottom) =>
           (- x_min + left_, - y_min + top, - x_min + right_, - y_min + bottom)%Z)
          <$> rects).

(** The rectangles moved by ([dx], [dy]). *)
Definition shifted (dx dy : Z) (rects : list Rect) : list Rect :=
  (fun '(left_, top, right_, bottom) =>
     (left_ + dx, top + dy, right_ + dx, bottom + dy)%Z) <$> rects.

(** ** Pixels *)

(** A pixel of an 8-bit RGB picture. *)
Definition byte_px (px : RGB) : bool :=
  let '(r, g, b) := px in
  ((0 <=? r) && (r <? 256) && (0 <=? g) && (g <? 256) && (0 <=? b) && (b <? 256))%Z.

(** How often a pixel occurs in a picture. *)
Definition px_count (c : RGB) (l : list RGB) : nat :=
  length (filter (fun px => px = c) l).

(** [v] does not beat [r] in the histogram of [l]: it is not more frequent,
    and if as frequent it is not smaller. *)
Definition not_beaten (l : list Z) (r v : Z) : Prop :=
  (occurrences v l <= occurrences r l)%nat /\
  (occurrences v l = occurrences r l -> (r <= v)%Z).

(** The call that a pass makes with colour [c] and duration [d]. *)
Definition call_to (t : Tick) (c : Color) (d : float) (r : bool) : set_color_call :=
  {| color := c; duration := d; rapid := r; raised := bulb_set_color t c d r |}.

(** The world after the handler of [except OSError] has logged. *)
Definition os_error_logged (s : World) : World :=
  with_log (log s ++ [(INFO, "Hit an os error")]) s.

(** The world after [self.stop()]. *)
Definition stop_set (s : World) : World :=
  with_threads (alter set_stop (thread s) (threads s)) s.

(** The world after the first two statements of [match_color]. *)
Definition entered (parent_hsbk : Color) (s : World) : World :=
  with_prev_color parent_hsbk
    (with_log (log s ++ [(DEBUG, "Starting color match.")]) s).

(** The world after the last statement of [match_color]. *)
Definition finished (s : World) : World :=
  with_log (log s ++ [(DEBUG, "Color match finished.")]) s.

(** The device refuses the push of a pass from [initial_color] with an
    [OSError]. *)
Definition push_refused (t : Tick) (initial_color : Color) (r : bool) : bool :=
  match pushed t initial_color with
  | Return (c, d) =>
      match bulb_set_color t c d r with
      | Some e => isinstance_OSError e
      | None => false
      end
  | Raise _ => false
  end.

(** The call, if any, of a pass from [initial_color]. *)
Definition call_in (initial_color : Color) (r : bool) (t : Tick) : list set_color_call :=
  match pushed t initial_color with
  | Return (c, d) => [call_to t c d r]
  | Raise _ => []
  end.

(** The world with the life of thread object [w] set to [g]. *)
Definition relife (w : nat) (g : stage) (s : World) : World :=
  with_threads (alter (set_life g) w (threads s)) s.

(** The last test of the loop condition by worker [w]: it needs nothing
    from outside. *)
Definition last_test (w : nat) (s : World) : World :=
  match life_of w s with
  | Looping =>
      if stopped (thread s) s
      then act w (logger DEBUG "Color match finished." ;; ret Finished) s
      else s
  | _ => s
  end.

(** [self.thread] refers to a thread object. *)
Definition well_formed (s : World) : Prop :=
  (thread s < length (threads s))%nat.

(** Whether [start()] will find a thread object it can start: the current
    one when it was never started, a new one when the stop event of the
    current one is set. *)
Definition startable (s : World) : bool :=
  stopped (thread s) s ||
  match life_of (thread s) s with
  | Unstarted => true
  | _ => false
  end.

(** The world after the [except RuntimeError] handler of [start]. *)
Definition start_refused (s : World) : World :=
  with_log (log s ++ [(ERROR, "Tried to start ColorThread again.")]) s.

(** How far a thread object has come in its life. *)
Definition stage_rank (g : stage) : nat :=
  match g with
  | Unstarted => 0
  | Entered => 1
  | Looping => 2
  | Exited _ => 3
  end.

(** The colour of the last call that the device accepted. *)
Definition last_accepted (calls : list set_color_call) : option Color :=
  foldl (fun acc call =>
           match raised call with
           | None => Some (color call)
           | Some _ => acc
           end)
        None calls.

(** The number of turns among some events. *)
Definition turns (evs : list event) : nat :=
  length (List.filter (fun ev => match ev with Turn _ _ => true | _ => false end) evs).

(** A tick whose colour function is one of the two samplers of the
    module, with whatever screen, region and conversion. *)
Definition sampler_tick (t : Tick) : Prop :=
  exists (DefaultMonitor : string) (str2list : string -> result (list Z))
         (grab_screen : result Image) (grab : Z -> Z -> Z -> Z -> result Image)
         (resize_HAMMING : Image -> Z -> Z -> result Image) (hsb : RGB -> Z * Z * Z)
         (func_bounds : option string),
    (forall initial_color : Color,
        color_function t initial_color =
        avg_screen_color DefaultMonitor str2list grab_screen grab resize_HAMMING hsb
          initial_color func_bounds) \/
    (forall initial_color : Color,
        color_function t initial_color =
        dominant_screen_color DefaultMonitor str2list grab_screen grab resize_HAMMING hsb
          initial_color func_bounds).

(** ** Sample inputs *)

Definition sample_config : Config :=
  {| cfg_duration := Return 2%float;
     cfg_brightnessoffset := Return 5%Z;
     cfg_continuous := true |}.

(** A screen that samples to brightness 300, the kelvin carried over. *)
Definition sample_screen (initial_color : Color) : result Color :=
  temperature ← getitem initial_color 3;
  mret [100; 200; 300; temperature]%Z.

(** A turn in which everything works. *)
Definition steady_tick : Tick :=
  {| color_function := sample_screen;
     config := sample_config;
     bulb_set_color := fun _ _ _ => None |}.

(** A turn in which the device times out. *)
Definition timeout_tick : Tick :=
  {| color_function := sample_screen;
     config := sample_config;
     bulb_set_color := fun _ _ _ => Some TimeoutError |}.


(** A turn in which the duration entry of the configuration does not
    convert to a float. *)
Definition broken_config_tick : Tick :=
  {| color_function := sample_screen;
     config := {| cfg_duration := Raise ValueError;
                  cfg_brightnessoffset := Return 5%Z;
                  cfg_continuous := true |};
     bulb_set_color := fun _ _ _ => None |}.

(** A turn with a brightness offset of -500. *)
Definition dimmed_tick : Tick :=
  {| color_function := sample_screen;
     config := {| cfg_duration := Return 2%float;
                  cfg_brightnessoffset := Return (-500)%Z;
                  cfg_continuous := true |};
     bulb_set_color := fun _ _ _ => None |}.

(** A turn whose configuration holds [continuous = false]. *)
Definition edited_tick : Tick :=
  {| color_function := sample_screen;
     config := {| cfg_duration := Return 3%float;
                  cfg_brightnessoffset := Return 7%Z;
                  cfg_continuous := false |};
     bulb_set_color := fun _ _ _ => None |}.

(** A captured 8 x 4 picture, given by a few of its pixels; a stand-in for
    the resize that hands the picture on; a colour conversion that keeps the
    three channels. *)
Definition sample_image : Image :=
  {| width := 8; height := 4;
     pixels := [(1, 2, 3); (4, 5, 6); (4, 5, 6); (7, 8, 9)]%Z |}.

Definition sample_resize (i : Image) (w h : Z) : result Image :=
  if ((w <=? 0) || (h <=? 0))%Z then Raise ValueError else Return i.

Definition sample_hsb (px : RGB) : Z * Z * Z := px.

Definition warm_white : Color := [0; 0; 40000; 2700]%Z.

(** A turn that samples the dominant colour of [sample_image]. *)
Definition dominant_tick : Tick :=
  {| color_function :=
       fun initial_color =>
         dominant_screen_color "full" (fun _ => Raise ValueError) (Return sample_image)
           (fun _ _ _ _ => Raise OSError) sample_resize sample_hsb initial_color None;
     config := sample_config;
     bulb_set_color := fun _ _ _ => None |}.

(** A runner just built, and the same after [start()]. *)
Definition fresh (continuous_arg : bool) : World :=
  __init__ warm_white continuous_arg (Return "Lamp").

Definition started (continuous_arg : bool) : World :=
  fst (start (fresh continuous_arg)).

(** * Properties *)

(** ** Indexing *)

Lemma getitem_Return {A : Type} (l : list A) (i : nat) (x : A) :
  getitem l i = Return x <-> l !! i = Some x.
Proof.
  unfold getitem. destruct (l !! i); split; intros H; congruence.
Qed.

Lemma setitem_getitem {A : Type} (l : list A) (i : nat) (x y : A) :
  getitem l i = Return y -> setitem l i x = Return (<[i := x]> l).
Proof.
  intros H%getitem_Return. unfold setitem.
  destruct (decide (i < length l)) as [_ | Hge]; [reflexivity |].
  exfalso. apply Hge. eapply lookup_lt_Some. exact H.
Qed.

(** Runs the plumbing of the monad, leaving the calls of the program in
    place. *)
Ltac py_step :=
  cbv beta iota zeta delta
    [bind ret lift gets modify logger get_brightness_offset get_duration].

(** ** One pass of the loop *)

(** The statements under [try], case by case: nothing reaches the bulb when
    the preparation raises; otherwise exactly one call does, and the
    baseline moves only when the device accepts it. *)
Lemma match_color_attempt_cases (t : Tick) (s : World) :
  match_color_attempt t s =
  match pushed t (prev_color s) with
  | Raise e => (s, Raise e)
  | Return (c, d) =>
      let s1 := with_sent (sent s ++ [call_to t c d (continuous s)]) s in
      match bulb_set_color t c d (continuous s) with
      | Some e => (s1, Raise e)
      | None => (with_prev_color c s1, Return Fallthrough)
      end
  end.
Proof.
  unfold match_color_attempt, pushed. py_step.
  destruct (color_function t (prev_color s)) as [sampled | e]; [| reflexivity].
  destruct (getitem sampled 2) as [b | e] eqn:Hb; [| reflexivity].
  destruct (cfg_brightnessoffset (config t)) as [o | e]; [| reflexivity].
  py_step. rewrite (setitem_getitem _ _ _ _ Hb).
  destruct (cfg_duration (config t)) as [secs | e]; [| reflexivity].
  unfold set_color, call_to.
  destruct (bulb_set_color t _ _ (continuous s)); reflexivity.
Qed.

(** A whole pass, case by case: an [OSError] of the preparation or of the
    device is logged and the pass ends normally; any other exception leaves
    the pass; a pass that goes through moves the baseline and, in one-shot
    mode, sets the stop event. *)
Lemma iteration_cases (t : Tick) (s : World) :
  iteration t s =
  match pushed t (prev_color s) with
  | Raise e =>
      if isinstance_OSError e then (os_error_logged s, Return tt) else (s, Raise e)
  | Return (c, d) =>
      let s1 := with_sent (sent s ++ [call_to t c d (continuous s)]) s in
      match bulb_set_color t c d (continuous s) with
      | Some e =>
          if isinstance_OSError e then (os_error_logged s1, Return tt) else (s1, Raise e)
      | None =>
          let s2 := with_prev_color c s1 in
          (if continuous s then s2 else stop_set s2, Return tt)
      end
  end.
Proof.
  unfold iteration, match_color_try, try_except, bind at 1.
  rewrite match_color_attempt_cases.
  destruct (pushed t (prev_color s)) as [[c d] | e].
  - cbv zeta. destruct (bulb_set_color t c d (continuous s)) as [e |].
    + destruct (isinstance_OSError e); reflexivity.
    + destruct s as [n p k ts cs l]. simpl. destruct k; reflexivity.
  - destruct (isinstance_OSError e); reflexivity.
Qed.

(** A pass makes at most one call, the one [pushed] describes. *)
Lemma calls_of_cases (t : Tick) (s : World) :
  calls_of t s =
  match pushed t (prev_color s) with
  | Raise _ => []
  | Return (c, d) => [call_to t c d (continuous s)]
  end.
Proof.
  unfold calls_of. rewrite iteration_cases.
  destruct (pushed t (prev_color s)) as [[c d] | e].
  - cbv zeta. destruct (bulb_set_color t c d (continuous s)) as [e |].
    + destruct (isinstance_OSError e); simpl; apply drop_app_length.
    + destruct (continuous s); simpl; apply drop_app_length.
  - destruct (isinstance_OSError e); simpl; apply drop_all.
Qed.

(** What [pushed] returns, read back on the tick. *)
Lemma pushed_Return (t : Tick) (initial_color c : Color) (d : float) :
  pushed t initial_color = Return (c, d) ->
  exists (sampled : Color) (b o : Z) (seconds : float),
    color_function t initial_color = Return sampled /\
    sampled !! 2%nat = Some b /\
    cfg_brightnessoffset (config t) = Return o /\
    cfg_duration (config t) = Return seconds /\
    c = <[2%nat := Z.min (b + o) 65535]> sampled /\
    d = (seconds * 1000)%float.
Proof.
  unfold pushed. intros H.
  destruct (color_function t initial_color) as [sampled | e]; [| discriminate].
  destruct (getitem sampled 2) as [b | e] eqn:Hb; [| discriminate].
  destruct (cfg_brightnessoffset (config t)) as [o | e]; [| discriminate].
  destruct (cfg_duration (config t)) as [seconds | e]; [| discriminate].
  injection H as <- <-. apply getitem_Return in Hb.
  exists sampled, b, o, seconds. repeat split; assumption.
Qed.

(** Every call of a pass is the call [pushed] describes. *)
Lemma calls_of_elem (t : Tick) (s : World) (call : set_color_call) :
  call ∈ calls_of t s ->
  exists (c : Color) (d : float),
    pushed t (prev_color s) = Return (c, d) /\ call = call_to t c d (continuous s).
Proof.
  rewrite calls_of_cases.
  destruct (pushed t (prev_color s)) as [[c d] | e].
  - intros ->%list_elem_of_singleton. exists c, d. split; reflexivity.
  - intros H. inversion H.
Qed.

(** ** What reaches the bulb *)

(** The brightness of a call is bounded above. *)
Lemma pushed_brightness_bound (t : Tick) (s : World) (call : set_color_call) :
  call ∈ calls_of t s ->
  exists v : Z, color call !! 2%nat = Some v /\ (v <= 65535)%Z.
Proof.
  intros (c & d & Hp & ->)%calls_of_elem.
  apply pushed_Return in Hp as (sampled & b & o & seconds & _ & Hb & _ & _ & -> & _).
  exists (Z.min (b + o) 65535). split.
  - simpl. apply list_lookup_insert_eq. eapply lookup_lt_Some. exact Hb.
  - apply Z.le_min_r.
Qed.

(** C7 (offset clamp).  Every call that a pass of the loop makes carries, as
    brightness (index 2), [min (b + o) 65535], where [b] is the brightness
    of the colour sampled in that pass and [o] the brightness offset read in
    that pass; the value never exceeds 65535. *)
Theorem pushed_brightness_clamped (t : Tick) (s : World) (call : set_color_call) :
  call ∈ calls_of t s ->
  exists (sampled : Color) (b o : Z),
    color_function t (prev_color s) = Return sampled /\
    sampled !! 2%nat = Some b /\
    cfg_brightnessoffset (config t) = Return o /\
    color call !! 2%nat = Some (Z.min (b + o) 65535) /\
    (Z.min (b + o) 65535 <= 65535)%Z.
Proof.
  intros (c & d & Hp & ->)%calls_of_elem.
  apply pushed_Return in Hp as (sampled & b & o & seconds & Hf & Hb & Ho & _ & -> & _).
  exists sampled, b, o. repeat split; try assumption.
  - simpl. apply list_lookup_insert_eq. eapply lookup_lt_Some. exact Hb.
  - apply Z.le_min_r.
Qed.

Lemma pushed_brightness_clamped_witness :
  exists (sampled : Color) (b o : Z),
    color_function steady_tick (prev_color (started true)) = Return sampled /\
    sampled !! 2%nat = Some b /\
    cfg_brightnessoffset (config steady_tick) = Return o /\
    color (call_to steady_tick [100; 200; 305; 2700]%Z 2000%float true) !! 2%nat
      = Some (Z.min (b + o) 65535) /\
    (Z.min (b + o) 65535 <= 65535)%Z.
Proof.
  apply (pushed_brightness_clamped steady_tick (started true)).
  rewrite calls_of_cases. vm_compute. apply list_elem_of_here.
Defined.

(** C9 (no lower clamp).  There are a sampled colour of brightness [b >= 0]
    and a negative offset [o] with [b < -o] for which the brightness handed
    to [set_color] is negative: only the upper bound is enforced. *)
Theorem pushed_brightness_can_be_negative :
  exists (t : Tick) (s : World) (sampled : Color) (b o v : Z) (call : set_color_call),
    color_function t (prev_color s) = Return sampled /\
    sampled !! 2%nat = Some b /\ (0 <= b)%Z /\
    cfg_brightnessoffset (config t) = Return o /\ (o < 0)%Z /\ (b < - o)%Z /\
    calls_of t s = [call] /\
    color call !! 2%nat = Some v /\ (v < 0)%Z.
Proof.
  exists dimmed_tick, (started true), [100; 200; 300; 2700]%Z, 300%Z, (-500)%Z, (-200)%Z,
    (call_to dimmed_tick [100; 200; -200; 2700]%Z 2000%float true).
  repeat split; try reflexivity; lia.
Qed.


(** The [continuous] attribute is written by [__init__] alone: no pass of
    the loop changes it. *)
Lemma iteration_continuous (t : Tick) (s : World) :
  continuous (fst (iteration t s)) = continuous s.
Proof.
  rewrite iteration_cases.
  destruct (pushed t (prev_color s)) as [[c d] | e].
  - cbv zeta. destruct (bulb_set_color t c d (continuous s)) as [e |].
    + destruct (isinstance_OSError e); reflexivity.
    + destruct (continuous s) eqn:Hk; simpl; exact Hk.
  - destruct (isinstance_OSError e); reflexivity.
Qed.

(** C5, as stated, fails: with a configured duration of 2 (seconds) the
    [duration] argument of the call is 2000, not 2. *)
Lemma duration_unscaled_counterexample :
  exists call : set_color_call,
    call ∈ calls_of steady_tick (started true) /\
    cfg_duration (config steady_tick) = Return 2%float /\
    duration call = 2000%float /\
    cfg_duration (config steady_tick) <> Return (duration call).
Proof.
  exists (call_to steady_tick [100; 200; 305; 2700]%Z 2000%float true).
  split; [| split; [| split]].
  - rewrite calls_of_cases. vm_compute. apply list_elem_of_here.
  - reflexivity.
  - reflexivity.
  - intros H.
    apply (f_equal (fun r => match r with
                             | Return x => PrimFloat.ltb x 3%float
                             | Raise _ => false
                             end)) in H.
    vm_compute in H. discriminate H.
Qed.

(** C5 (amended).  Every call that a pass makes has as [duration] the
    configured duration read in that pass multiplied by 1000, and as
    [rapid] the runner's [continuous] attribute. *)
Theorem pushed_duration_and_rapid (t : Tick) (s : World) (call : set_color_call) :
  call ∈ calls_of t s ->
  exists seconds : float,
    cfg_duration (config t) = Return seconds /\
    duration call = (seconds * 1000)%float /\
    rapid call = continuous s.
Proof.
  intros (c & d & Hp & ->)%calls_of_elem.
  apply pushed_Return in Hp as (sampled & b & o & seconds & _ & _ & _ & Hd & _ & ->).
  exists seconds. repeat split. exact Hd.
Qed.

Lemma pushed_duration_and_rapid_witness :
  exists seconds : float,
    cfg_duration (config steady_tick) = Return seconds /\
    duration (call_to steady_tick [100; 200; 305; 2700]%Z 2000%float false)
      = (seconds * 1000)%float /\
    rapid (call_to steady_tick [100; 200; 305; 2700]%Z 2000%float false)
      = continuous (started false).
Proof.
  apply (pushed_duration_and_rapid steady_tick (started false)).
  rewrite calls_of_cases. vm_compute. apply list_elem_of_here.
Defined.

(** C6, as stated, fails for [continuous]: the runner was built with
    [continuous=True]; after a first pass the configuration is edited to
    hold [continuous = false]; the second pass still pushes with
    [rapid=True] and does not stop the loop. *)
Lemma continuous_reread_counterexample :
  let s1 := fst (iteration steady_tick (started true)) in
  exists call : set_color_call,
    calls_of edited_tick s1 = [call] /\
    cfg_continuous (config edited_tick) = false /\
    rapid call = true /\
    rapid call <> cfg_continuous (config edited_tick) /\
    stopped (thread s1) (fst (iteration edited_tick s1)) = false.
Proof.
  exists (call_to edited_tick [100; 200; 307; 2700]%Z 3000%float true).
  split; [| split; [| split; [| split]]]; try reflexivity.
  simpl. discriminate.
Qed.

(** C6 (amended).  Of two consecutive passes, the later one reads its
    duration and its brightness offset from the configuration as it is
    during that pass, whatever it was before; [continuous] is not read from
    the configuration: the [rapid] flag is the attribute stored by
    [__init__], which no pass changes. *)
Theorem config_read_each_pass (t1 t2 : Tick) (s : World) (call : set_color_call) :
  call ∈ calls_of t2 (fst (iteration t1 s)) ->
  exists (sampled : Color) (b o : Z) (seconds : float),
    color_function t2 (prev_color (fst (iteration t1 s))) = Return sampled /\
    sampled !! 2%nat = Some b /\
    cfg_brightnessoffset (config t2) = Return o /\
    cfg_duration (config t2) = Return seconds /\
    color call = <[2%nat := Z.min (b + o) 65535]> sampled /\
    duration call = (seconds * 1000)%float /\
    rapid call = continuous s /\
    continuous (fst (iteration t2 (fst (iteration t1 s)))) = continuous s.
Proof.
  intros (c & d & Hp & ->)%calls_of_elem.
  apply pushed_Return in Hp as (sampled & b & o & seconds & Hf & Hb & Ho & Hd & -> & ->).
  exists sampled, b, o, seconds.
  repeat split; try assumption.
  - simpl. apply iteration_continuous.
  - rewrite !iteration_continuous. reflexivity.
Qed.

Lemma config_read_each_pass_witness :
  exists (sampled : Color) (b o : Z) (seconds : float),
    color_function edited_tick
      (prev_color (fst (iteration steady_tick (started true)))) = Return sampled /\
    sampled !! 2%nat = Some b /\
    cfg_brightnessoffset (config edited_tick) = Return o /\
    cfg_duration (config edited_tick) = Return seconds /\
    color (call_to edited_tick [100; 200; 307; 2700]%Z 3000%float true)
      = <[2%nat := Z.min (b + o) 65535]> sampled /\
    duration (call_to edited_tick [100; 200; 307; 2700]%Z 3000%float true)
      = (seconds * 1000)%float /\
    rapid (call_to edited_tick [100; 200; 307; 2700]%Z 3000%float true)
      = continuous (started true) /\
    continuous (fst (iteration edited_tick (fst (iteration steady_tick (started true)))))
      = continuous (started true).
Proof.
  apply (config_read_each_pass steady_tick edited_tick (started true)).
  rewrite calls_of_cases. vm_compute. apply list_elem_of_here.
Defined.

(** ** The samplers *)

Lemma result_bind_Return {A B : Type} (m : result A) (k : A -> result B) (b : B) :
  m ≫= k = Return b -> exists a : A, m = Return a /\ k a = Return b.
Proof.
  destruct m as [a | e]; simpl; intros H; [| discriminate].
  exists a. split; [reflexivity | exact H].
Qed.

Lemma RGBtoHSBK_temperature (hsb : RGB -> Z * Z * Z) (rgb : RGB) (temperature : Z) :
  RGBtoHSBK hsb rgb temperature !! 3%nat = Some temperature.
Proof.
  unfold RGBtoHSBK. destruct (hsb rgb) as [[h sa] b]. reflexivity.
Qed.

(** On bytes the quantisation of [dominant_screen_color] loses nothing. *)
Lemma unravel_index_encode (r g b : Z) :
  (0 <= r < 256)%Z -> (0 <= g < 256)%Z -> (0 <= b < 256)%Z ->
  unravel_index (encode (r, g, b)) = Return (r, g, b).
Proof.
  intros Hr Hg Hb. unfold unravel_index, encode.
  assert (Hrange : ((0 <=? r * 256 * 256 + g * 256 + b)
                    && (r * 256 * 256 + g * 256 + b <? 256 * 256 * 256))%Z = true).
  { apply andb_true_intro. split; [apply Z.leb_le | apply Z.ltb_lt]; lia. }
  rewrite Hrange. do 2 f_equal; [f_equal |].
  - symmetry. apply (Z.div_unique _ _ _ (g * 256 + b)); lia.
  - replace ((r * 256 * 256 + g * 256 + b) / 256)%Z with (r * 256 + g)%Z
      by (apply (Z.div_unique _ _ _ b); lia).
    symmetry. apply (Z.mod_unique _ _ r); lia.
  - symmetry. apply (Z.mod_unique _ _ (r * 256 + g)); lia.
Qed.

(** C8 (temperature carry-forward).  Whatever the capture, the resize and
    the colour conversion give, a colour returned by [avg_screen_color] or
    by [dominant_screen_color] has at index 3 the entry that
    [initial_color] has at index 3. *)
Theorem sampler_keeps_temperature
  (DefaultMonitor : string) (str2list : string -> result (list Z))
  (grab_screen : result Image) (grab : Z -> Z -> Z -> Z -> result Image)
  (resize_HAMMING : Image -> Z -> Z -> result Image) (hsb : RGB -> Z * Z * Z)
  (initial_color : Color) (func_bounds : option string) (out : Color) :
  avg_screen_color DefaultMonitor str2list grab_screen grab resize_HAMMING hsb
    initial_color func_bounds = Return out \/
  dominant_screen_color DefaultMonitor str2list grab_screen grab resize_HAMMING hsb
    initial_color func_bounds = Return out ->
  exists kelvin : Z,
    initial_color !! 3%nat = Some kelvin /\ out !! 3%nat = Some kelvin.
Proof.
  intros [H | H].
  - unfold avg_screen_color in H.
    apply result_bind_Return in H as (screenshot & _ & H).
    apply result_bind_Return in H as (one & _ & H).
    apply result_bind_Return in H as (px & _ & H).
    apply result_bind_Return in H as (kelvin & Hk%getitem_Return & H).
    injection H as <-. exists kelvin.
    split; [exact Hk | apply RGBtoHSBK_temperature].
  - unfold dominant_screen_color in H.
    apply result_bind_Return in H as (screenshot & _ & H).
    apply result_bind_Return in H as (small & _ & H).
    apply result_bind_Return in H as (v & _ & H).
    apply result_bind_Return in H as (px & _ & H).
    apply result_bind_Return in H as (kelvin & Hk%getitem_Return & H).
    injection H as <-. exists kelvin.
    split; [exact Hk | apply RGBtoHSBK_temperature].
Qed.

Lemma sampler_keeps_temperature_witness :
  exists kelvin : Z,
    warm_white !! 3%nat = Some kelvin /\ [4; 5; 6; 2700]%Z !! 3%nat = Some kelvin.
Proof.
  apply (sampler_keeps_temperature "full" (fun _ => Raise ValueError)
           (Return sample_image) (fun _ _ _ _ => Raise OSError)
           sample_resize sample_hsb warm_white None).
  right. vm_compute. reflexivity.
Defined.

(** ** The loop *)

Lemma while_not_stopped_halt (ticks : list Tick) (s : World) :
  stopped (thread s) s = true -> while_not_stopped ticks s = (s, Return Finished).
Proof.
  intros H. destruct ticks; simpl; py_step; rewrite H; reflexivity.
Qed.

Lemma while_not_stopped_nil (s : World) :
  stopped (thread s) s = false -> while_not_stopped [] s = (s, Return Pending).
Proof.
  intros H. simpl; py_step; rewrite H; reflexivity.
Qed.

Lemma while_not_stopped_cons (t : Tick) (ticks : list Tick) (s : World) :
  stopped (thread s) s = false ->
  while_not_stopped (t :: ticks) s =
  match iteration t s with
  | (s', Return _) => while_not_stopped ticks s'
  | (s', Raise e) => (s', Raise e)
  end.
Proof.
  intros H. simpl. unfold bind at 1, gets at 1. unfold bind at 1, gets at 1.
  rewrite H. reflexivity.
Qed.

Lemma match_color_unfold (parent_hsbk : Color) (ticks : list Tick) (s : World) :
  match_color parent_hsbk ticks s =
  match while_not_stopped ticks (entered parent_hsbk s) with
  | (s', Return Finished) => (finished s', Return Finished)
  | (s', Return Pending) => (s', Return Pending)
  | (s', Raise e) => (s', Raise e)
  end.
Proof.
  unfold match_color, entered, finished.
  unfold bind at 1, logger at 1, modify at 1.
  unfold bind at 1, modify at 1. unfold bind at 1.
  destruct (while_not_stopped ticks _) as [s' [[] | e]]; reflexivity.
Qed.

(** A pass whose push the device refuses with an [OSError]: the call is
    made, the handler logs, and nothing else moves. *)
Lemma iteration_refused (t : Tick) (s : World) :
  push_refused t (prev_color s) (continuous s) = true ->
  iteration t s =
  (os_error_logged
     (with_sent (sent s ++ call_in (prev_color s) (continuous s) t) s),
   Return tt).
Proof.
  unfold push_refused, call_in. rewrite iteration_cases.
  destruct (pushed t (prev_color s)) as [[c d] | e]; [| discriminate].
  cbv zeta. destruct (bulb_set_color t c d (continuous s)) as [e |]; [| discriminate].
  intros ->. reflexivity.
Qed.

(** A pass whose push the device accepts. *)
Lemma iteration_accepted (t : Tick) (s : World) (c : Color) (d : float) :
  pushed t (prev_color s) = Return (c, d) ->
  bulb_set_color t c d (continuous s) = None ->
  iteration t s =
  (let s2 := with_prev_color c
               (with_sent (sent s ++ [call_to t c d (continuous s)]) s) in
   if continuous s then s2 else stop_set s2,
   Return tt).
Proof.
  intros Hp Hb. rewrite iteration_cases, Hp. cbv zeta. rewrite Hb. reflexivity.
Qed.

(** The loop goes through any number of refused pushes: each adds its call
    and a log record, and the next pass starts from the same baseline. *)
Lemma while_not_stopped_refused (fails rest : list Tick) (s : World) :
  stopped (thread s) s = false ->
  forallb (fun f => push_refused f (prev_color s) (continuous s)) fails = true ->
  while_not_stopped (fails ++ rest) s =
  while_not_stopped rest
    (with_log (log s ++ replicate (length fails) (INFO, "Hit an os error"))
       (with_sent (sent s ++ flat_map (call_in (prev_color s) (continuous s)) fails) s)).
Proof.
  revert s. induction fails as [| f fails IH]; intros s Hs Hall.
  - simpl. rewrite !app_nil_r. destruct s; reflexivity.
  - simpl in Hall. apply andb_prop in Hall as [Hf Hall].
    change ((f :: fails) ++ rest) with (f :: (fails ++ rest)).
    rewrite (while_not_stopped_cons _ _ _ Hs), (iteration_refused _ _ Hf).
    rewrite IH; [| exact Hs | exact Hall].
    f_equal. unfold os_error_logged, with_log, with_sent; simpl.
    rewrite <- !app_assoc. reflexivity.
Qed.

Lemma stopped_stop_set (s : World) :
  (thread s < length (threads s))%nat -> stopped (thread s) (stop_set s) = true.
Proof.
  intros Hwf. unfold stopped, stop_set. simpl.
  rewrite list_lookup_alter_eq.
  destruct (threads s !! thread s) as [th |] eqn:Hth; [reflexivity |].
  apply lookup_ge_None in Hth. lia.
Qed.

Lemma life_of_settled (w : nat) (g : stage) (s : World) :
  (w < length (threads s))%nat ->
  life_of w (with_threads (alter (set_life g) w (threads s)) s) = g.
Proof.
  intros Hw. unfold life_of. simpl. rewrite list_lookup_alter_eq.
  destruct (threads s !! w) as [th |] eqn:Hth; [reflexivity |].
  apply lookup_ge_None in Hth. lia.
Qed.

Lemma stopped_settled (w n : nat) (g : stage) (s : World) :
  stopped n (with_threads (alter (set_life g) w (threads s)) s) = stopped n s.
Proof.
  unfold stopped. simpl. rewrite list_lookup_alter.
  destruct (decide (w = n)) as [-> |]; [| reflexivity].
  destruct (threads s !! n); reflexivity.
Qed.

Lemma length_calls_refused (initial_color : Color) (r : bool) (fails : list Tick) :
  forallb (fun f => push_refused f initial_color r) fails = true ->
  length (flat_map (call_in initial_color r) fails) = length fails.
Proof.
  induction fails as [| f fails IH]; simpl; [reflexivity |].
  intros [Hf Hall]%andb_prop. rewrite length_app, (IH Hall).
  unfold push_refused in Hf. unfold call_in.
  destruct (pushed f initial_color) as [[c d] | e]; [reflexivity | discriminate].
Qed.

(** The one-shot loop: refused pushes are tried again, the first accepted
    push sets the stop event, and the next test of the loop condition
    leaves the loop, whatever ticks remain. *)
Lemma one_shot_loop (fails : list Tick) (t : Tick) (rest : list Tick)
    (s : World) (c : Color) (d : float) :
  continuous s = false ->
  (thread s < length (threads s))%nat ->
  stopped (thread s) s = false ->
  forallb (fun f => push_refused f (prev_color s) false) fails = true ->
  pushed t (prev_color s) = Return (c, d) ->
  bulb_set_color t c d false = None ->
  while_not_stopped (fails ++ t :: rest) s =
  (stop_set
     (with_prev_color c
        (with_sent (sent s ++ flat_map (call_in (prev_color s) false) fails
                           ++ [call_to t c d false])
           (with_log (log s ++ replicate (length fails) (INFO, "Hit an os error")) s))),
   Return Finished).
Proof.
  intros Hk Hwf Hs Hall Hp Hb.
  rewrite while_not_stopped_refused; rewrite ?Hk; [| exact Hs | exact Hall].
  rewrite while_not_stopped_cons; [| exact Hs].
  erewrite iteration_accepted; [| exact Hp | simpl; rewrite Hk; exact Hb].
  simpl continuous. rewrite Hk. cbv zeta.
  match goal with
  | |- while_not_stopped rest ?x = _ => rewrite (while_not_stopped_halt rest x)
  end.
  - f_equal. unfold stop_set, with_prev_color, with_sent, with_log; simpl.
    rewrite <- app_assoc. reflexivity.
  - match goal with
    | |- stopped _ (stop_set ?x) = true => apply (stopped_stop_set x)
    end.
    exact Hwf.
Qed.

(** What [run] leaves when the loop was left normally. *)
Lemma run_Finished (w : nat) (parent_hsbk : Color) (ticks : list Tick) (s s' : World) :
  while_not_stopped ticks (entered parent_hsbk s) = (s', Return Finished) ->
  run w parent_hsbk ticks s =
  with_threads (alter (set_life (Exited Returned)) w (threads (finished s'))) (finished s').
Proof.
  intros H. unfold run, act. rewrite match_color_unfold, H. reflexivity.
Qed.

Lemma run_Pending (w : nat) (parent_hsbk : Color) (ticks : list Tick) (s s' : World) :
  while_not_stopped ticks (entered parent_hsbk s) = (s', Return Pending) ->
  run w parent_hsbk ticks s = with_threads (alter (set_life Looping) w (threads s')) s'.
Proof.
  intros H. unfold run, act. rewrite match_color_unfold, H. reflexivity.
Qed.

(** ** Starting *)

Lemma start_stop_clear (s : World) :
  stopped (thread s) s = false ->
  start s =
  try_except
    (n <- gets thread ;; Thread_start n ;; logger DEBUG "Thread started.")
    isinstance_RuntimeError
    (logger ERROR "Tried to start ColorThread again.") s.
Proof.
  intros H. unfold start. unfold bind at 1, gets at 1. unfold bind at 1, gets at 1.
  rewrite H. reflexivity.
Qed.

(** A thread object that has been started is not started again. *)
Lemma start_again (s : World) :
  (thread s < length (threads s))%nat ->
  stopped (thread s) s = false ->
  life_of (thread s) s <> Unstarted ->
  start s = (start_refused s, Return tt).
Proof.
  intros Hwf Hs Hl. rewrite (start_stop_clear _ Hs).
  unfold try_except, bind at 1, gets at 1, bind at 1, Thread_start.
  unfold life_of in Hl.
  destruct (threads s !! thread s) as [th |] eqn:Hth.
  - destruct (life th); [contradiction | reflexivity ..].
  - apply lookup_ge_None in Hth. lia.
Qed.

(** The thread object built by [__init__] is started by the first
    [start()]. *)
Lemma start_first (s : World) (th : ColorThread) :
  stopped (thread s) s = false ->
  threads s !! thread s = Some th ->
  life th = Unstarted ->
  start s =
  (with_log (log s ++ [(DEBUG, "Thread started.")])
     (with_threads (<[thread s := set_life Entered th]> (threads s)) s),
   Return tt).
Proof.
  intros Hs Hth Hl. rewrite (start_stop_clear _ Hs).
  unfold try_except, bind at 1, gets at 1, bind at 1, Thread_start.
  rewrite Hth, Hl. reflexivity.
Qed.

(** Once the stop event is set, [start()] builds a new thread object and
    starts it, whatever has become of the old one. *)
Lemma start_replaces (s : World) :
  stopped (thread s) s = true ->
  start s =
  (with_log (log s ++ [(DEBUG, "Thread started.")])
     (with_threads (threads s ++ [set_life Entered new_ColorThread])
        (with_thread (length (threads s)) s)),
   Return tt).
Proof.
  intros Hs. unfold start. unfold bind at 1, gets at 1. unfold bind at 1, gets at 1.
  rewrite Hs. unfold bind at 1, modify at 1.
  unfold try_except, bind at 1, gets at 1, bind at 1, Thread_start.
  simpl thread. simpl threads.
  rewrite lookup_app_r, Nat.sub_diag by lia. simpl.
  rewrite insert_app_r_alt, Nat.sub_diag by lia. reflexivity.
Qed.

Lemma filter_alive_insert (l : list ColorThread) (n : nat) (old new : ColorThread) :
  l !! n = Some old -> alive old = false -> alive new = true ->
  length (List.filter alive (<[n := new]> l)) = S (length (List.filter alive l)).
Proof.
  revert n. induction l as [| x l IH]; intros [| n] Hn Ho Hnew; try discriminate.
  - injection Hn as ->. simpl. rewrite Ho, Hnew. reflexivity.
  - simpl in Hn. simpl. destruct (alive x); simpl; rewrite (IH n Hn Ho Hnew); reflexivity.
Qed.

(** A [start()] that finds a thread object it can start leaves that object
    as [self.thread], started and with its stop event clear, and touches
    nothing else but the log. *)
Lemma start_startable (s0 : World) :
  well_formed s0 ->
  startable s0 = true ->
  let s := fst (start s0) in
  well_formed s /\
  stopped (thread s) s = false /\
  life_of (thread s) s = Entered /\
  continuous s = continuous s0 /\
  sent s = sent s0.
Proof.
  intros Hwf Hst s. unfold well_formed in *. unfold startable in Hst. subst s.
  destruct (stopped (thread s0) s0) eqn:Hs.
  - rewrite (start_replaces _ Hs). simpl.
    unfold stopped, life_of. simpl.
    rewrite length_app, lookup_app_r, Nat.sub_diag by lia. simpl.
    repeat split; try reflexivity. lia.
  - simpl in Hst. unfold life_of in Hst.
    destruct (threads s0 !! thread s0) as [th |] eqn:Hth;
      [| apply lookup_ge_None in Hth; lia].
    assert (Hflag : _stop th = false) by (unfold stopped in Hs; now rewrite Hth in Hs).
    destruct (life th) eqn:Hl; try discriminate.
    rewrite (start_first _ _ Hs Hth Hl). simpl.
    unfold stopped, life_of. simpl.
    rewrite length_insert, list_lookup_insert_eq by exact Hwf. simpl.
    repeat split; try reflexivity; assumption.
Qed.

(** ** One-shot mode *)

(** C10 (one-shot retry).  In one-shot mode ([continuous=False]) a push that
    the device refuses with an [OSError] does not end the worker: after any
    number of such passes the worker is still looping with the stop event
    clear, having made one call per pass; the first accepted push is the
    last call, sets the stop event and ends the worker.  A one-shot run
    therefore makes one call more than it met refusals. *)
Theorem one_shot_retries_until_success
    (fails : list Tick) (t : Tick) (rest : list Tick) (parent_hsbk : Color)
    (s : World) (c : Color) (d : float) :
  continuous s = false ->
  well_formed s ->
  stopped (thread s) s = false ->
  forallb (fun f => push_refused f parent_hsbk false) fails = true ->
  pushed t parent_hsbk = Return (c, d) ->
  bulb_set_color t c d false = None ->
  let waiting := run (thread s) parent_hsbk fails s in
  let s' := run (thread s) parent_hsbk (fails ++ t :: rest) s in
  (life_of (thread s) waiting = Looping /\
   stopped (thread s) waiting = false /\
   length (sent waiting) = (length (sent s) + length fails)%nat) /\
  (sent s' = sent s ++ flat_map (call_in parent_hsbk false) fails ++ [call_to t c d false] /\
   length (sent s') = (length (sent s) + length fails + 1)%nat /\
   life_of (thread s) s' = Exited Returned /\
   stopped (thread s) s' = true).
Proof.
  intros Hk Hwf Hs Hall Hp Hb waiting s'.
  split.
  - assert (Hw : while_not_stopped fails (entered parent_hsbk s) =
                 (with_log (log (entered parent_hsbk s)
                              ++ replicate (length fails) (INFO, "Hit an os error"))
                    (with_sent (sent s ++ flat_map (call_in parent_hsbk false) fails)
                       (entered parent_hsbk s)),
                  Return Pending)).
    { rewrite <- (app_nil_r fails) at 1.
      rewrite while_not_stopped_refused; simpl continuous; rewrite ?Hk;
        [| exact Hs | exact Hall].
      apply while_not_stopped_nil. exact Hs. }
    subst waiting. rewrite (run_Pending _ _ _ _ _ Hw).
    split; [| split].
    + apply life_of_settled. exact Hwf.
    + rewrite stopped_settled. exact Hs.
    + simpl. rewrite length_app, (length_calls_refused _ _ _ Hall). reflexivity.
  - pose proof (one_shot_loop fails t rest (entered parent_hsbk s) c d
                  Hk Hwf Hs Hall Hp Hb) as Hloop.
    subst s'. rewrite (run_Finished _ _ _ _ _ Hloop).
    split; [| split; [| split]].
    + reflexivity.
    + simpl. rewrite !length_app, (length_calls_refused _ _ _ Hall). simpl. lia.
    + apply life_of_settled. simpl. rewrite length_alter. exact Hwf.
    + rewrite stopped_settled.
      change (stopped (thread s) (stop_set (entered parent_hsbk s)) = true).
      apply (stopped_stop_set (entered parent_hsbk s)). exact Hwf.
Qed.

Lemma one_shot_retries_until_success_witness :
  let waiting := run 0 warm_white [timeout_tick; timeout_tick] (started false) in
  let s' := run 0 warm_white ([timeout_tick; timeout_tick] ++ steady_tick :: [steady_tick])
              (started false) in
  (life_of 0 waiting = Looping /\
   stopped 0 waiting = false /\
   length (sent waiting) = (0 + 2)%nat) /\
  (sent s' = [] ++ flat_map (call_in warm_white false) [timeout_tick; timeout_tick]
                ++ [call_to steady_tick [100; 200; 305; 2700]%Z 2000%float false] /\
   length (sent s') = (0 + 2 + 1)%nat /\
   life_of 0 s' = Exited Returned /\
   stopped 0 s' = true).
Proof.
  apply (one_shot_retries_until_success [timeout_tick; timeout_tick] steady_tick
           [steady_tick] warm_white (started false)
           [100; 200; 305; 2700]%Z 2000%float).
  - reflexivity.
  - unfold well_formed. simpl. lia.
  - reflexivity.
  - reflexivity.
  - reflexivity.
  - reflexivity.
Defined.

(** C3, as stated, fails: in one-shot mode a run whose first push times out
    makes two [set_color] calls before it returns to Idle. *)
Lemma one_shot_counterexample :
  let s' := run 0 warm_white [timeout_tick; steady_tick; steady_tick] (started false) in
  continuous (started false) = false /\
  loop_state s' = Idle /\
  length (sent s') = 2%nat /\
  length (sent s') <> 1%nat.
Proof.
  vm_compute. repeat split; try reflexivity. discriminate.
Qed.

(** A one-shot worker whose first pass goes through. *)
Lemma one_shot_run
    (t : Tick) (rest : list Tick) (parent_hsbk : Color)
    (s : World) (c : Color) (d : float) :
  continuous s = false ->
  well_formed s ->
  stopped (thread s) s = false ->
  pushed t parent_hsbk = Return (c, d) ->
  bulb_set_color t c d false = None ->
  let s' := run (thread s) parent_hsbk (t :: rest) s in
  sent s' = sent s ++ [call_to t c d false] /\
  prev_color s' = c /\
  stopped (thread s) s' = true /\
  life_of (thread s) s' = Exited Returned /\
  loop_state s' = Idle.
Proof.
  intros Hk Hwf Hs Hp Hb s'.
  pose proof (one_shot_loop [] t rest (entered parent_hsbk s) c d
                Hk Hwf Hs eq_refl Hp Hb) as Hloop.
  subst s'. rewrite (run_Finished _ _ _ _ _ Hloop).
  assert (Hlife : forall x : World,
             (thread s < length (threads x))%nat -> thread x = thread s ->
             loop_state (with_threads
                           (alter (set_life (Exited Returned)) (thread s) (threads x)) x)
             = Idle).
  { intros x Hx Hn. unfold loop_state. simpl. rewrite Hn, list_lookup_alter_eq.
    destruct (threads x !! thread s); reflexivity. }
  split; [| split; [| split; [| split]]].
  - reflexivity.
  - reflexivity.
  - rewrite stopped_settled.
    change (stopped (thread s) (stop_set (entered parent_hsbk s)) = true).
    apply (stopped_stop_set (entered parent_hsbk s)). exact Hwf.
  - apply life_of_settled. simpl. rewrite length_alter. exact Hwf.
  - apply Hlife; [| reflexivity]. simpl. rewrite length_alter. exact Hwf.
Qed.

(** C3 (amended).  In one-shot mode, after a [start()] that spawns the
    worker, when the first pass goes through (the device accepts its push),
    the run makes exactly that one [set_color] call and the loop returns to
    Idle, whatever and however many ticks it is offered afterwards: the
    loop calls [stop()] after its first successful pass. *)
Theorem one_shot_single_push
    (t : Tick) (rest : list Tick) (parent_hsbk : Color)
    (s0 : World) (c : Color) (d : float) :
  well_formed s0 ->
  startable s0 = true ->
  continuous s0 = false ->
  pushed t parent_hsbk = Return (c, d) ->
  bulb_set_color t c d false = None ->
  let s := fst (start s0) in
  let s' := run (thread s) parent_hsbk (t :: rest) s in
  sent s' = sent s0 ++ [call_to t c d false] /\
  prev_color s' = c /\
  stopped (thread s) s' = true /\
  life_of (thread s) s' = Exited Returned /\
  loop_state s' = Idle.
Proof.
  intros Hwf0 Hst Hk0 Hp Hb s s'.
  destruct (start_startable s0 Hwf0 Hst) as (Hwf & Hs & _ & Hk & Hsent).
  fold s in Hwf, Hs, Hk, Hsent. rewrite Hk0 in Hk.
  rewrite <- Hsent.
  exact (one_shot_run t rest parent_hsbk s c d Hk Hwf Hs Hp Hb).
Qed.

Lemma one_shot_single_push_witness :
  let s := fst (start (fresh false)) in
  let s' := run (thread s) warm_white (steady_tick :: [steady_tick; timeout_tick]) s in
  sent s' = sent (fresh false)
              ++ [call_to steady_tick [100; 200; 305; 2700]%Z 2000%float false] /\
  prev_color s' = [100; 200; 305; 2700]%Z /\
  stopped (thread s) s' = true /\
  life_of (thread s) s' = Exited Returned /\
  loop_state s' = Idle.
Proof.
  apply (one_shot_single_push steady_tick [steady_tick; timeout_tick] warm_white
           (fresh false) [100; 200; 305; 2700]%Z 2000%float).
  - unfold well_formed. simpl. lia.
  - reflexivity.
  - reflexivity.
  - reflexivity.
  - reflexivity.
Defined.

(** ** Errors inside a pass *)




(** C1, as stated, fails: a [ValueError] raised while the duration is read
    is not caught by [except OSError]; it leaves the pass and the loop, the
    thread ends in [sys.excepthook], and the following tick is never
    served. *)
Lemma uncaught_error_counterexample :
  let s' := run 0 warm_white [broken_config_tick; steady_tick] (started true) in
  iteration broken_config_tick (entered warm_white (started true))
    = (entered warm_white (started true), Raise ValueError) /\
  life_of 0 s' = Exited (Excepthook ValueError) /\
  loop_state s' = Idle /\
  sent s' = [].
Proof.
  vm_compute. repeat split; reflexivity.
Qed.

(** C1 (amended).  An exception raised inside a pass is caught exactly when
    it is an [OSError] (or of a subclass): it is then logged and the loop
    goes on to the next pass.  Any other exception leaves the loop and ends
    the worker: the patched [Thread.run] hands it to [sys.excepthook],
    [KeyboardInterrupt] and [SystemExit] being re-raised. *)
Theorem only_OSError_is_survived
    (t : Tick) (ticks : list Tick) (s s1 : World) (e : exn) :
  stopped (thread s) s = false ->
  match_color_attempt t s = (s1, Raise e) ->
  if isinstance_OSError e
  then iteration t s = (os_error_logged s1, Return tt) /\
       while_not_stopped (t :: ticks) s = while_not_stopped ticks (os_error_logged s1)
  else iteration t s = (s1, Raise e) /\
       while_not_stopped (t :: ticks) s = (s1, Raise e) /\
       forall w : nat,
         (w < length (threads s1))%nat ->
         life_of w (act w (while_not_stopped (t :: ticks)) s)
         = Exited (if isinstance_exit e then Reraised e else Excepthook e).
Proof.
  intros Hs Ha.
  assert (Hit : iteration t s =
                if isinstance_OSError e then (os_error_logged s1, Return tt)
                else (s1, Raise e)).
  { unfold iteration, match_color_try, try_except, bind at 1. rewrite Ha.
    destruct (isinstance_OSError e); reflexivity. }
  rewrite (while_not_stopped_cons _ _ _ Hs), Hit.
  destruct (isinstance_OSError e).
  - split; reflexivity.
  - split; [reflexivity |]. split; [reflexivity |].
    intros w Hw. unfold act.
    rewrite (while_not_stopped_cons _ _ _ Hs), Hit.
    apply life_of_settled. exact Hw.
Qed.

Lemma only_OSError_is_survived_witness :
  let s1 := with_sent [call_to timeout_tick [100; 200; 305; 2700]%Z 2000%float true]
              (started true) in
  iteration timeout_tick (started true) = (os_error_logged s1, Return tt) /\
  while_not_stopped (timeout_tick :: [steady_tick]) (started true)
    = while_not_stopped [steady_tick] (os_error_logged s1).
Proof.
  apply (only_OSError_is_survived timeout_tick [steady_tick] (started true)
           (with_sent [call_to timeout_tick [100; 200; 305; 2700]%Z 2000%float true]
              (started true))
           TimeoutError).
  - reflexivity.
  - reflexivity.
Defined.

(** ** Starting, as the specification sees it *)

(** C2, as stated, fails in the StopRequested state: a runner is started,
    its worker pushes once, [stop()] is called and, before the worker has
    tested its loop condition again, [start()]: a second worker is spawned
    beside the first, and both go on pushing. *)
Lemma start_while_stop_requested_counterexample :
  let s := execs [Start; Enter 0 warm_white; Turn 0 steady_tick; Stop] (fresh true) in
  let s' := execs [Start; Enter 1 warm_white; Turn 0 steady_tick; Turn 1 steady_tick;
                   Turn 0 steady_tick] s in
  loop_state s = StopRequested /\
  workers s = 1%nat /\
  workers (fst (start s)) = 2%nat /\
  workers s' = 2%nat /\
  length (sent s) = 1%nat /\
  length (sent s') = 4%nat.
Proof.
  vm_compute. repeat split; reflexivity.
Qed.

(** C2 (amended).  [start()] spawns a worker exactly when it finds a thread
    object it can start: the current one if it was never started, a fresh
    one if the stop event of the current one is set, which includes the
    StopRequested state.  Otherwise, and so in the Running state, it is a
    no-op that logs "Tried to start ColorThread again.".  A [start()] that
    follows a [start()] is always such a no-op, so two calls in a row spawn
    at most one worker. *)
Theorem start_spawns_when_startable (s : World) :
  well_formed s ->
  let s' := fst (start s) in
  (if startable s
   then workers s' = S (workers s) /\ loop_state s' = Running
   else s' = start_refused s) /\
  (loop_state s = Running -> startable s = false) /\
  (loop_state s = StopRequested -> startable s = true) /\
  fst (start s') = start_refused s'.
Proof.
  intros Hwf s'. unfold well_formed in Hwf.
  destruct (threads s !! thread s) as [th |] eqn:Hth;
    [| apply lookup_ge_None in Hth; lia].
  assert (Hstop : stopped (thread s) s = _stop th) by (unfold stopped; now rewrite Hth).
  assert (Hlife : life_of (thread s) s = life th) by (unfold life_of; now rewrite Hth).
  assert (Hagain : forall x : World,
             (thread x < length (threads x))%nat ->
             stopped (thread x) x = false ->
             life_of (thread x) x <> Unstarted ->
             fst (start x) = start_refused x).
  { intros x H1 H2 H3. now rewrite start_again. }
  assert (started_case :
            stopped (thread s) s = false ->
            life_of (thread s) s <> Unstarted ->
            (alive th = true -> _stop th = false) ->
            fst (start s) = start_refused s /\
            ((if alive th then if _stop th then StopRequested else Running else Idle)
             = Running -> false = false) /\
            ((if alive th then if _stop th then StopRequested else Running else Idle)
             = StopRequested -> false = true) /\
            fst (start (fst (start s))) = start_refused (fst (start s))).
  { intros H1 H2 H3. rewrite (start_again _ Hwf H1 H2). simpl fst.
    split; [reflexivity |]. split; [reflexivity |]. split.
    - destruct (alive th); [rewrite H3 by reflexivity |]; discriminate.
    - apply Hagain; assumption. }
  unfold startable, loop_state. rewrite Hstop, Hlife, Hth. subst s'.
  destruct (_stop th) eqn:Hflag.
  - (* the stop event is set: a fresh thread object *)
    rewrite (start_replaces _ Hstop). simpl fst.
    split; [| split; [| split]].
    + simpl. split.
      * unfold workers. simpl. rewrite List.filter_app, length_app. simpl. lia.
      * unfold loop_state. simpl.
        rewrite lookup_app_r, Nat.sub_diag by lia. reflexivity.
    + unfold alive. destruct (life th); discriminate.
    + reflexivity.
    + apply Hagain.
      * simpl. rewrite length_app. simpl. lia.
      * unfold stopped. simpl. rewrite lookup_app_r, Nat.sub_diag by lia. reflexivity.
      * unfold life_of. simpl. rewrite lookup_app_r, Nat.sub_diag by lia. discriminate.
  - destruct (life th) eqn:Hl.
    + (* never started: the thread object of [__init__] *)
      rewrite (start_first _ _ Hstop Hth Hl). simpl fst.
      split; [| split; [| split]].
      * simpl. split.
        -- unfold workers. simpl. apply (filter_alive_insert _ _ th); try reflexivity.
           ++ exact Hth.
           ++ unfold alive. now rewrite Hl.
        -- unfold loop_state. simpl. rewrite list_lookup_insert_eq by exact Hwf.
           simpl. rewrite Hflag. reflexivity.
      * unfold alive. rewrite Hl. discriminate.
      * unfold alive. rewrite Hl. discriminate.
      * apply Hagain.
        -- simpl. rewrite length_insert. exact Hwf.
        -- unfold stopped. simpl. rewrite list_lookup_insert_eq by exact Hwf. exact Hflag.
        -- unfold life_of. simpl. rewrite list_lookup_insert_eq by exact Hwf. discriminate.
    + apply started_case;
        [exact Hstop | rewrite Hlife; discriminate | intros _; reflexivity].
    + apply started_case;
        [exact Hstop | rewrite Hlife; discriminate | intros _; reflexivity].
    + apply started_case;
        [exact Hstop | rewrite Hlife; discriminate | intros _; reflexivity].
Qed.

Lemma start_spawns_when_startable_witness :
  let s' := fst (start (started true)) in
  s' = start_refused (started true) /\
  (loop_state (started true) = Running -> startable (started true) = false) /\
  (loop_state (started true) = StopRequested -> startable (started true) = true) /\
  fst (start s') = start_refused s'.
Proof.
  apply (start_spawns_when_startable (started true)).
  unfold well_formed. simpl. lia.
Defined.

(** ** The whole loop *)

Lemma iteration_sent (t : Tick) (s : World) :
  sent (fst (iteration t s)) = sent s ++ calls_of t s.
Proof.
  rewrite calls_of_cases, iteration_cases.
  destruct (pushed t (prev_color s)) as [[c d] | e].
  - cbv zeta. destruct (bulb_set_color t c d (continuous s)) as [e |].
    + destruct (isinstance_OSError e); reflexivity.
    + destruct (continuous s); reflexivity.
  - destruct (isinstance_OSError e); simpl; now rewrite app_nil_r.
Qed.

(** What holds of the calls of every pass holds of all the calls of a
    loop. *)
Lemma while_not_stopped_calls (P : set_color_call -> Prop) (k : bool) :
  (forall (t : Tick) (s : World) (call : set_color_call),
      continuous s = k -> call ∈ calls_of t s -> P call) ->
  forall (ticks : list Tick) (s : World),
    continuous s = k ->
    Forall P (sent s) ->
    Forall P (sent (fst (while_not_stopped ticks s))).
Proof.
  intros HP ticks. induction ticks as [| t ticks IH]; intros s Hk Hs.
  - destruct (stopped (thread s) s) eqn:Hh.
    + now rewrite while_not_stopped_halt.
    + now rewrite while_not_stopped_nil.
  - destruct (stopped (thread s) s) eqn:Hh.
    + now rewrite while_not_stopped_halt.
    + rewrite (while_not_stopped_cons _ _ _ Hh).
      pose proof (iteration_sent t s) as Hsent.
      pose proof (iteration_continuous t s) as Hcont.
      assert (Hnext : Forall P (sent (fst (iteration t s)))).
      { rewrite Hsent. apply Forall_app. split; [exact Hs |].
        apply Forall_forall. intros call Hc. now apply (HP t s). }
      destruct (iteration t s) as [s1 [[] | e]]; simpl in *.
      * apply IH; [congruence | exact Hnext].
      * exact Hnext.
Qed.

(** No call of a run carries a brightness above 65535, and every call of a
    run has the runner's [continuous] attribute as [rapid]. *)
Lemma run_calls (w : nat) (parent_hsbk : Color) (ticks : list Tick) (s : World) :
  sent s = [] ->
  Forall (fun call =>
            rapid call = continuous s /\
            exists v : Z, color call !! 2%nat = Some v /\ (v <= 65535)%Z)
         (sent (run w parent_hsbk ticks s)).
Proof.
  intros Hs.
  assert (H : Forall (fun call =>
                        rapid call = continuous s /\
                        exists v : Z, color call !! 2%nat = Some v /\ (v <= 65535)%Z)
                     (sent (fst (while_not_stopped ticks (entered parent_hsbk s))))).
  { apply (while_not_stopped_calls _ (continuous s)).
    - intros t x call Hk Hc. split.
      + apply calls_of_elem in Hc as (c & d & _ & ->). simpl. exact Hk.
      + apply pushed_brightness_bound in Hc. exact Hc.
    - reflexivity.
    - simpl. rewrite Hs. constructor. }
  unfold run, act. rewrite match_color_unfold.
  destruct (while_not_stopped ticks (entered parent_hsbk s)) as [s1 [[] | e]];
    simpl in *; exact H.
Qed.

(** ** The worker, whole and step by step *)

Lemma alter_commute_life_stop (g : stage) (w n : nat) (l : list ColorThread) :
  alter set_stop n (alter (set_life g) w l) = alter (set_life g) w (alter set_stop n l).
Proof.
  rewrite list_alter_alter. destruct (decide (n = w)) as [-> |]; [| reflexivity].
  rewrite list_alter_alter_eq. apply list_alter_ext; [| reflexivity].
  intros [] _. reflexivity.
Qed.

Lemma relife_relife (w : nat) (g1 g2 : stage) (s : World) :
  relife w g2 (relife w g1 s) = relife w g2 s.
Proof.
  unfold relife, with_threads; simpl. f_equal.
  rewrite list_alter_alter_eq. apply list_alter_ext; [| reflexivity].
  intros [] _. reflexivity.
Qed.

Lemma relife_id (w : nat) (g : stage) (s : World) :
  life_of w s = g -> (w < length (threads s))%nat -> relife w g s = s.
Proof.
  intros Hg Hw. unfold relife, life_of in *.
  destruct (threads s !! w) as [th |] eqn:Hth; [| apply lookup_ge_None in Hth; lia].
  assert (Hsame : alter (set_life g) w (threads s) = threads s).
  { rewrite <- (list_insert_id _ _ _ Hth) at 2. rewrite list_insert_alter.
    apply list_alter_ext; [| reflexivity].
    intros x Hx. rewrite Hth in Hx. injection Hx as <-.
    destruct th as [flag l]. simpl in Hg. subst l. reflexivity. }
  rewrite Hsame. destruct s; reflexivity.
Qed.

(** A pass neither reads nor writes the life of a thread object. *)
Lemma iteration_relife (w : nat) (g : stage) (t : Tick) (s : World) :
  iteration t (relife w g s) =
  (relife w g (fst (iteration t s)), snd (iteration t s)).
Proof.
  rewrite !iteration_cases. simpl prev_color. simpl continuous.
  destruct (pushed t (prev_color s)) as [[c d] | e].
  - cbv zeta. destruct (bulb_set_color t c d (continuous s)) as [e |].
    + destruct (isinstance_OSError e); reflexivity.
    + destruct (continuous s); [reflexivity |].
      simpl. unfold stop_set, relife, with_threads; simpl.
      rewrite alter_commute_life_stop. reflexivity.
  - destruct (isinstance_OSError e); reflexivity.
Qed.

Lemma while_not_stopped_relife (w : nat) (g : stage) (ticks : list Tick) (s : World) :
  while_not_stopped ticks (relife w g s) =
  (relife w g (fst (while_not_stopped ticks s)), snd (while_not_stopped ticks s)).
Proof.
  revert s. induction ticks as [| t ticks IH]; intros s.
  - destruct (stopped (thread s) s) eqn:Hs.
    + rewrite !while_not_stopped_halt; [reflexivity | exact Hs |].
      unfold relife. rewrite stopped_settled. exact Hs.
    + rewrite !while_not_stopped_nil; [reflexivity | exact Hs |].
      unfold relife. rewrite stopped_settled. exact Hs.
  - destruct (stopped (thread s) s) eqn:Hs.
    + rewrite !while_not_stopped_halt; [reflexivity | exact Hs |].
      unfold relife. rewrite stopped_settled. exact Hs.
    + rewrite !while_not_stopped_cons;
        [| exact Hs | unfold relife; rewrite stopped_settled; exact Hs].
      rewrite iteration_relife.
      destruct (iteration t s) as [s1 [[] | e]]; simpl; [apply IH | reflexivity].
Qed.

Lemma iteration_threads (t : Tick) (s : World) :
  threads (fst (iteration t s)) = threads s \/
  threads (fst (iteration t s)) = alter set_stop (thread s) (threads s).
Proof.
  rewrite iteration_cases.
  destruct (pushed t (prev_color s)) as [[c d] | e].
  - cbv zeta. destruct (bulb_set_color t c d (continuous s)) as [e |].
    + destruct (isinstance_OSError e); left; reflexivity.
    + destruct (continuous s); [left | right]; reflexivity.
  - destruct (isinstance_OSError e); left; reflexivity.
Qed.

Lemma iteration_life (w : nat) (t : Tick) (s : World) :
  life_of w (fst (iteration t s)) = life_of w s /\
  length (threads (fst (iteration t s))) = length (threads s).
Proof.
  unfold life_of. destruct (iteration_threads t s) as [-> | ->]; [split; reflexivity |].
  rewrite length_alter, list_lookup_alter. split; [| reflexivity].
  destruct (decide (thread s = w)) as [-> |]; [| reflexivity].
  destruct (threads s !! w); reflexivity.
Qed.

(** Turns offered to a thread that is over change nothing. *)
Lemma execs_turns_over (w : nat) (ticks : list Tick) (s : World) :
  life_of w s <> Looping -> execs (map (Turn w) ticks) s = s.
Proof.
  intros H. induction ticks as [| t ticks IH]; [reflexivity |].
  change (execs (map (Turn w) (t :: ticks)) s)
    with (execs (map (Turn w) ticks) (exec (Turn w t) s)).
  assert (Hstep : exec (Turn w t) s = s).
  { simpl. destruct (life_of w s); try reflexivity. contradiction. }
  rewrite Hstep. exact IH.
Qed.

Lemma last_test_over (w : nat) (s : World) :
  life_of w s <> Looping -> last_test w s = s.
Proof.
  intros H. unfold last_test. destruct (life_of w s); try reflexivity. contradiction.
Qed.

(** The loop of worker [w], taken one turn at a time, comes to what the
    loop as a whole comes to. *)
Lemma loop_stepwise (w : nat) (ticks : list Tick) (s : World) :
  life_of w s = Looping ->
  (w < length (threads s))%nat ->
  last_test w (execs (map (Turn w) ticks) s) =
  match while_not_stopped ticks s with
  | (s', Return Finished) => relife w (Exited Returned) (finished s')
  | (s', r) => relife w (settle r) s'
  end.
Proof.
  revert s. induction ticks as [| t ticks IH]; intros s Hl Hw.
  - change (execs (map (Turn w) []) s) with s.
    unfold last_test. rewrite Hl.
    destruct (stopped (thread s) s) eqn:Hs.
    + rewrite (while_not_stopped_halt _ _ Hs). reflexivity.
    + rewrite (while_not_stopped_nil _ Hs).
      symmetry. apply relife_id; assumption.
  - change (execs (map (Turn w) (t :: ticks)) s)
      with (execs (map (Turn w) ticks) (exec (Turn w t) s)).
    simpl exec. rewrite Hl. unfold act, turn.
    unfold bind at 1, gets at 1. unfold bind at 1, gets at 1.
    destruct (stopped (thread s) s) eqn:Hs.
    + rewrite (while_not_stopped_halt _ _ Hs).
      change ((logger DEBUG "Color match finished.";; ret Finished) s)
        with (finished s, @Return progress Finished).
      cbv iota beta.
      assert (Hover : life_of w (relife w (Exited Returned) (finished s)) <> Looping).
      { unfold relife. rewrite life_of_settled by exact Hw. discriminate. }
      change (with_threads
                (alter (set_life (settle (Return Finished))) w (threads (finished s)))
                (finished s))
        with (relife w (Exited Returned) (finished s)).
      rewrite (execs_turns_over _ _ _ Hover). apply last_test_over. exact Hover.
    + rewrite (while_not_stopped_cons _ _ _ Hs).
      destruct (iteration_life w t s) as [Hl1 Hw1].
      unfold bind at 1.
      destruct (iteration t s) as [s1 [[] | e]]; simpl in Hl1, Hw1.
      * change (let (s', r) := ret Pending s1 in
                with_threads (alter (set_life (settle r)) w (threads s')) s')
          with (relife w Looping s1).
        rewrite relife_id by congruence.
        apply IH; congruence.
      * assert (Hover : life_of w (relife w (settle (Raise e)) s1) <> Looping).
        { unfold relife. rewrite life_of_settled by congruence. discriminate. }
        cbv iota beta.
        change (with_threads (alter (set_life (settle (Raise e))) w (threads s1)) s1)
          with (relife w (settle (Raise e)) s1).
        rewrite (execs_turns_over _ _ _ Hover). apply last_test_over. exact Hover.
Qed.

(** [run] and the step-by-step worker agree: a started thread that enters
    [match_color], is given its turns one after another and tests its loop
    condition a last time is where [run] leaves it. *)
Lemma run_stepwise (w : nat) (parent_hsbk : Color) (ticks : list Tick) (s : World) :
  life_of w s = Entered ->
  (w < length (threads s))%nat ->
  run w parent_hsbk ticks s =
  last_test w (execs (Enter w parent_hsbk :: map (Turn w) ticks) s).
Proof.
  intros Hl Hw.
  change (execs (Enter w parent_hsbk :: map (Turn w) ticks) s)
    with (execs (map (Turn w) ticks) (exec (Enter w parent_hsbk) s)).
  simpl exec. rewrite Hl.
  change (act w (enter parent_hsbk) s) with (relife w Looping (entered parent_hsbk s)).
  rewrite loop_stepwise.
  - rewrite while_not_stopped_relife.
    unfold run, act. rewrite match_color_unfold.
    destruct (while_not_stopped ticks (entered parent_hsbk s)) as [s1 [[] | e]];
      simpl; unfold finished, relife, with_threads, with_log; simpl; f_equal;
      rewrite list_alter_alter_eq; (apply list_alter_ext; [| reflexivity]);
      intros [] _; reflexivity.
  - unfold relife. apply life_of_settled. exact Hw.
  - unfold relife. simpl. rewrite length_alter. exact Hw.
Qed.

(** ** Well-formed worlds *)

Lemma well_formed_init (parent_hsbk : Color) (continuous_arg : bool) (label : result string) :
  well_formed (__init__ parent_hsbk continuous_arg label).
Proof. unfold well_formed. simpl. lia. Qed.

Lemma well_formed_start (s : World) : well_formed s -> well_formed (fst (start s)).
Proof.
  unfold well_formed. intros Hwf.
  destruct (stopped (thread s) s) eqn:Hs.
  - rewrite (start_replaces _ Hs). simpl. rewrite length_app. simpl. lia.
  - destruct (threads s !! thread s) as [th |] eqn:Hth;
      [| apply lookup_ge_None in Hth; lia].
    destruct (life th) eqn:Hl.
    + rewrite (start_first _ _ Hs Hth Hl). simpl. rewrite length_insert. exact Hwf.
    + rewrite start_again; [exact Hwf | exact Hwf | exact Hs |].
      unfold life_of. rewrite Hth, Hl. discriminate.
    + rewrite start_again; [exact Hwf | exact Hwf | exact Hs |].
      unfold life_of. rewrite Hth, Hl. discriminate.
    + rewrite start_again; [exact Hwf | exact Hwf | exact Hs |].
      unfold life_of. rewrite Hth, Hl. discriminate.
Qed.

Lemma iteration_thread (t : Tick) (s : World) :
  thread (fst (iteration t s)) = thread s.
Proof.
  rewrite iteration_cases.
  destruct (pushed t (prev_color s)) as [[c d] | e].
  - cbv zeta. destruct (bulb_set_color t c d (continuous s)) as [e |].
    + destruct (isinstance_OSError e); reflexivity.
    + destruct (continuous s); reflexivity.
  - destruct (isinstance_OSError e); reflexivity.
Qed.

(** Every step of the controller or of a worker keeps the world
    well-formed. *)
Lemma well_formed_exec (ev : event) (s : World) : well_formed s -> well_formed (exec ev s).
Proof.
  intros Hwf. destruct ev as [| | w parent_hsbk | w t]; simpl.
  - apply well_formed_start. exact Hwf.
  - unfold well_formed in *. simpl. rewrite length_alter. exact Hwf.
  - destruct (life_of w s); try exact Hwf.
    unfold well_formed in *. simpl. rewrite length_alter. exact Hwf.
  - destruct (life_of w s); try exact Hwf.
    unfold act, turn. unfold bind at 1, gets at 1. unfold bind at 1, gets at 1.
    destruct (stopped (thread s) s).
    + unfold well_formed in *. simpl. rewrite length_alter. exact Hwf.
    + unfold bind at 1.
      pose proof (iteration_thread t s) as Hn.
      destruct (iteration_life w t s) as [_ Hlen].
      destruct (iteration t s) as [s1 [[] | e]]; simpl in *;
        unfold well_formed in *; simpl; rewrite length_alter; lia.
Qed.

Lemma well_formed_execs (evs : list event) (s : World) :
  well_formed s -> well_formed (execs evs s).
Proof.
  revert s. induction evs as [| ev evs IH]; intros s Hwf; [exact Hwf |].
  apply (IH (exec ev s)). apply well_formed_exec. exact Hwf.
Qed.

(** * Further properties of the module *)

(** ** Rectangles *)

Lemma foldl_min_le (l : list Z) (x : Z) :
  (foldl Z.min x l <= x)%Z /\ Forall (fun y => (foldl Z.min x l <= y)%Z) l.
Proof.
  revert x. induction l as [| y l IH]; intros x; simpl.
  - split; [lia | constructor].
  - destruct (IH (Z.min x y)) as [H1 H2]. split; [lia |].
    constructor; [lia | exact H2].
Qed.

Lemma foldl_min_in (l : list Z) (x : Z) : foldl Z.min x l ∈ x :: l.
Proof.
  revert x. induction l as [| y l IH]; intros x; simpl.
  - apply list_elem_of_here.
  - specialize (IH (Z.min x y)). apply elem_of_cons in IH as [H | H].
    + rewrite H. destruct (Z.min_spec x y) as [[_ ->] | [_ ->]].
      * apply list_elem_of_here.
      * apply list_elem_of_further, list_elem_of_here.
    + do 2 apply list_elem_of_further. exact H.
Qed.

(** [min] of a sequence that is not empty is one of its members and a lower
    bound of all of them. *)
Lemma py_min_Return (l : list Z) (m : Z) :
  py_min l = Return m -> m ∈ l /\ Forall (fun y => (m <= y)%Z) l.
Proof.
  destruct l as [| x l]; simpl; [discriminate |].
  intros H. injection H as <-. split; [apply foldl_min_in |].
  destruct (foldl_min_le l x) as [H1 H2]. constructor; assumption.
Qed.

Lemma py_min_unique (l : list Z) (m : Z) :
  m ∈ l -> Forall (fun y => (m <= y)%Z) l -> py_min l = Return m.
Proof.
  intros Hin Hall. destruct l as [| x l]; [inversion Hin |].
  simpl. f_equal.
  destruct (py_min_Return (x :: l) _ eq_refl) as [Hin' Hall'].
  rewrite Forall_forall in Hall, Hall'.
  apply Z.le_antisymm; [apply Hall' | apply Hall]; assumption.
Qed.

(** What [normalize_rectangles] returns on a list that is not empty. *)
Lemma normalize_rectangles_Return (rects out : list Rect) :
  normalize_rectangles rects = Return out ->
  exists x_min y_min : Z,
    py_min (rect_left <$> rects) = Return x_min /\
    py_min (rect_top <$> rects) = Return y_min /\
    out = shifted (- x_min) (- y_min) rects.
Proof.
  unfold normalize_rectangles. intros H.
  apply result_bind_Return in H as (x_min & Hx & H).
  apply result_bind_Return in H as (y_min & Hy & H).
  injection H as <-. exists x_min, y_min. repeat split; try assumption.
  unfold shifted. apply list_fmap_ext. intros _ [[[l t] r] b] _. simpl.
  f_equal; [f_equal; [f_equal |] |]; apply Z.add_comm.
Qed.

(** [normalize_rectangles] raises [ValueError] on the empty list and on no
    other: on every other list it returns as many rectangles as it was
    given. *)
Theorem normalize_rectangles_empty :
  normalize_rectangles [] = Raise ValueError /\
  forall (r : Rect) (rects : list Rect),
  exists out : list Rect,
    normalize_rectangles (r :: rects) = Return out /\ length out = S (length rects).
Proof.
  split; [reflexivity |].
  intros r rects. unfold normalize_rectangles. simpl. eexists. split; [reflexivity |].
  simpl. rewrite length_fmap. reflexivity.
Qed.

Lemma normalize_rectangles_mins (rects : list Rect) (x_min y_min : Z) :
  py_min (rect_left <$> rects) = Return x_min ->
  py_min (rect_top <$> rects) = Return y_min ->
  normalize_rectangles rects = Return (shifted (- x_min) (- y_min) rects).
Proof.
  intros Hx Hy. unfold normalize_rectangles. rewrite Hx, Hy. simpl. f_equal.
  unfold shifted. apply list_fmap_ext. intros _ [[[l t] r] b] _. simpl.
  f_equal; [f_equal; [f_equal |] |]; apply Z.add_comm.
Qed.

Lemma py_min_shift (l : list Z) (m d : Z) :
  py_min l = Return m -> py_min ((fun x => (x + d)%Z) <$> l) = Return (m + d)%Z.
Proof.
  intros [Hin Hall]%py_min_Return. apply py_min_unique.
  - apply list_elem_of_fmap. exists m. split; [reflexivity | exact Hin].
  - apply Forall_fmap. eapply Forall_impl; [exact Hall |]. simpl. intros y Hy. lia.
Qed.

Lemma rect_left_shifted (dx dy : Z) (rects : list Rect) :
  rect_left <$> shifted dx dy rects = (fun x => (x + dx)%Z) <$> (rect_left <$> rects).
Proof.
  unfold shifted. rewrite <- !list_fmap_compose. apply list_fmap_ext.
  intros _ [[[l t] r] b] _. reflexivity.
Qed.

Lemma rect_top_shifted (dx dy : Z) (rects : list Rect) :
  rect_top <$> shifted dx dy rects = (fun y => (y + dy)%Z) <$> (rect_top <$> rects).
Proof.
  unfold shifted. rewrite <- !list_fmap_compose. apply list_fmap_ext.
  intros _ [[[l t] r] b] _. reflexivity.
Qed.

Lemma shifted_shifted (a b c d : Z) (rects : list Rect) :
  shifted a b (shifted c d rects) = shifted (c + a) (d + b) rects.
Proof.
  unfold shifted. rewrite <- list_fmap_compose. apply list_fmap_ext.
  intros _ [[[l t] r] bt] _. simpl.
  f_equal; [f_equal; [f_equal |] |]; lia.
Qed.

Lemma shifted_zero (rects : list Rect) : shifted 0 0 rects = rects.
Proof.
  unfold shifted. rewrite <- (list_fmap_id rects) at 2. apply list_fmap_ext.
  intros _ [[[l t] r] b] _. simpl.
  f_equal; [f_equal; [f_equal |] |]; lia.
Qed.

(** The rectangles that [normalize_rectangles] returns are the given ones
    moved as a whole: all of them by one common offset, which is minus the
    least left, a member of the lefts given, and minus the least top, a
    member of the tops given.  So each rectangle keeps its place in the
    list, its width and its height; none has a negative left or top, and the
    least left and the least top are 0. *)
Theorem normalize_rectangles_origin (rects out : list Rect) :
  normalize_rectangles rects = Return out ->
  (exists x_min y_min : Z,
      out = shifted (- x_min) (- y_min) rects /\
      x_min ∈ (rect_left <$> rects) /\
      Forall (fun x => (x_min <= x)%Z) (rect_left <$> rects) /\
      y_min ∈ (rect_top <$> rects) /\
      Forall (fun y => (y_min <= y)%Z) (rect_top <$> rects)) /\
  length out = length rects /\
  (forall (i : nat) (r o : Rect),
      rects !! i = Some r -> out !! i = Some o ->
      rect_width o = rect_width r /\ rect_height o = rect_height r) /\
  Forall (fun o => (0 <= rect_left o)%Z /\ (0 <= rect_top o)%Z) out /\
  (exists o : Rect, o ∈ out /\ rect_left o = 0%Z) /\
  (exists o : Rect, o ∈ out /\ rect_top o = 0%Z).
Proof.
  intros (x_min & y_min & Hx & Hy & ->)%normalize_rectangles_Return.
  apply py_min_Return in Hx as [Hxin Hxall].
  apply py_min_Return in Hy as [Hyin Hyall].
  split; [| split; [| split; [| split; [| split]]]].
  - exists x_min, y_min. repeat split; assumption.
  - unfold shifted. apply length_fmap.
  - intros i r o Hr Ho. unfold shifted in Ho.
    apply list_lookup_fmap_Some in Ho as (r' & -> & Hr').
    unfold Rect in *. assert (r' = r) as -> by congruence.
    destruct r as [[[l t] rt] b]. unfold rect_width, rect_height. simpl. lia.
  - unfold shifted. apply Forall_fmap, Forall_forall.
    intros [[[l t] rt] b] Hin. simpl.
    rewrite Forall_forall in Hxall, Hyall. split.
    + assert (x_min <= l)%Z; [| lia].
      apply Hxall, list_elem_of_fmap. exists (l, t, rt, b). split; [reflexivity | exact Hin].
    + assert (y_min <= t)%Z; [| lia].
      apply Hyall, list_elem_of_fmap. exists (l, t, rt, b). split; [reflexivity | exact Hin].
  - apply list_elem_of_fmap in Hxin as ([[[l t] rt] b] & Hl & Hin). simpl in Hl.
    exists (l + - x_min, t + - y_min, rt + - x_min, b + - y_min)%Z. split.
    + unfold shifted. apply list_elem_of_fmap. exists (l, t, rt, b). split; [reflexivity | exact Hin].
    + simpl. lia.
  - apply list_elem_of_fmap in Hyin as ([[[l t] rt] b] & Ht & Hin). simpl in Ht.
    exists (l + - x_min, t + - y_min, rt + - x_min, b + - y_min)%Z. split.
    + unfold shifted. apply list_elem_of_fmap. exists (l, t, rt, b). split; [reflexivity | exact Hin].
    + simpl. lia.
Qed.

Lemma normalize_rectangles_origin_witness :
  (exists x_min y_min : Z,
      [(0, 0, 10, 10); (5, 15, 25, 20)]%Z
      = shifted (- x_min) (- y_min) [(-5, 10, 5, 20); (0, 25, 20, 30)]%Z /\
      x_min ∈ (rect_left <$> [(-5, 10, 5, 20); (0, 25, 20, 30)]%Z) /\
      Forall (fun x => (x_min <= x)%Z) (rect_left <$> [(-5, 10, 5, 20); (0, 25, 20, 30)]%Z) /\
      y_min ∈ (rect_top <$> [(-5, 10, 5, 20); (0, 25, 20, 30)]%Z) /\
      Forall (fun y => (y_min <= y)%Z) (rect_top <$> [(-5, 10, 5, 20); (0, 25, 20, 30)]%Z)) /\
  length [(0, 0, 10, 10); (5, 15, 25, 20)]%Z = length [(-5, 10, 5, 20); (0, 25, 20, 30)]%Z /\
  (forall (i : nat) (r o : Rect),
      [(-5, 10, 5, 20); (0, 25, 20, 30)]%Z !! i = Some r ->
      [(0, 0, 10, 10); (5, 15, 25, 20)]%Z !! i = Some o ->
      rect_width o = rect_width r /\ rect_height o = rect_height r) /\
  Forall (fun o => (0 <= rect_left o)%Z /\ (0 <= rect_top o)%Z)
    [(0, 0, 10, 10); (5, 15, 25, 20)]%Z /\
  (exists o : Rect, o ∈ [(0, 0, 10, 10); (5, 15, 25, 20)]%Z /\ rect_left o = 0%Z) /\
  (exists o : Rect, o ∈ [(0, 0, 10, 10); (5, 15, 25, 20)]%Z /\ rect_top o = 0%Z).
Proof.
  apply (normalize_rectangles_origin [(-5, 10, 5, 20); (0, 25, 20, 30)]%Z).
  reflexivity.
Defined.

(** Normalising is idempotent, and it forgets where the rectangles were:
    moving all of them by the same offset before normalising changes
    nothing. *)
Theorem normalize_rectangles_shift (dx dy : Z) (rects out : list Rect) :
  normalize_rectangles rects = Return out ->
  normalize_rectangles out = Return out /\
  normalize_rectangles (shifted dx dy rects) = Return out.
Proof.
  intros H. pose proof H as (x_min & y_min & Hx & Hy & ->)%normalize_rectangles_Return.
  split.
  - pose proof (py_min_shift _ _ (- x_min) Hx) as Hx0.
    pose proof (py_min_shift _ _ (- y_min) Hy) as Hy0.
    rewrite <- (rect_left_shifted (- x_min) (- y_min)) in Hx0.
    rewrite <- (rect_top_shifted (- x_min) (- y_min)) in Hy0.
    rewrite (normalize_rectangles_mins _ _ _ Hx0 Hy0), shifted_shifted.
    f_equal. f_equal; lia.
  - pose proof (py_min_shift _ _ dx Hx) as Hx1.
    pose proof (py_min_shift _ _ dy Hy) as Hy1.
    rewrite <- (rect_left_shifted dx dy) in Hx1.
    rewrite <- (rect_top_shifted dx dy) in Hy1.
    rewrite (normalize_rectangles_mins _ _ _ Hx1 Hy1), shifted_shifted.
    f_equal. f_equal; lia.
Qed.

Lemma normalize_rectangles_shift_witness :
  normalize_rectangles [(0, 0, 10, 10); (5, 15, 25, 20)]%Z
    = Return [(0, 0, 10, 10); (5, 15, 25, 20)]%Z /\
  normalize_rectangles (shifted 100 (-7) [(-5, 10, 5, 20); (0, 25, 20, 30)]%Z)
    = Return [(0, 0, 10, 10); (5, 15, 25, 20)]%Z.
Proof.
  apply (normalize_rectangles_shift 100 (-7) [(-5, 10, 5, 20); (0, 25, 20, 30)]%Z).
  reflexivity.
Defined.

(** ** The dominant colour *)

Lemma occurrences_notin (v : Z) (l : list Z) : v ∉ l -> occurrences v l = 0%nat.
Proof.
  unfold occurrences. induction l as [| x l IH]; intros Hn; [reflexivity |].
  apply not_elem_of_cons in Hn as [Hne Hn]. simpl.
  destruct (Z.eqb_spec v x) as [-> |]; [contradiction |]. apply IH, Hn.
Qed.

(** The fold of [bincount_argmax] keeps a value that none of the values seen
    so far beats. *)
Lemma foldl_not_beaten (l p seen : list Z) (b : Z) :
  b ∈ seen ->
  (forall v, v ∈ seen -> not_beaten l b v) ->
  let r :=
    foldl (fun best v =>
             let nb := occurrences best l in
             let nv := occurrences v l in
             if (nb <? nv)%nat || ((nb =? nv)%nat && (v <? best)%Z) then v else best)
          b p in
  r ∈ seen ++ p /\ forall v, v ∈ seen ++ p -> not_beaten l r v.
Proof.
  revert seen b. induction p as [| x p IH]; intros seen b Hb Hall; simpl.
  - rewrite app_nil_r. split; assumption.
  - cbv zeta in IH.
    replace (seen ++ x :: p) with ((seen ++ [x]) ++ p) by (rewrite <- app_assoc; reflexivity).
    apply IH.
    + destruct ((occurrences b l <? occurrences x l)%nat
                || ((occurrences b l =? occurrences x l)%nat && (x <? b)%Z));
        apply elem_of_app; [right; apply list_elem_of_here | left; exact Hb].
    + intros v Hv. unfold not_beaten in *.
      destruct (Nat.ltb_spec (occurrences b l) (occurrences x l)) as [Hlt | Hge];
        [| destruct (Nat.eqb_spec (occurrences b l) (occurrences x l)) as [Heq | Hne];
           [destruct (Z.ltb_spec x b) as [Hxb | Hbx] |]]; simpl;
        apply elem_of_app in Hv as [Hv | Hv%list_elem_of_singleton];
        try (destruct (Hall v Hv) as [H1 H2]); subst; split; try lia;
        intros; try lia.
      all: try (assert (b <= v)%Z by (apply H2; lia); lia).
Qed.

(** The value that the fold of [bincount_argmax] ends with is a member of
    the list that no member beats. *)
Lemma bincount_argmax_Return (l : list Z) (r : Z) :
  bincount_argmax l = Return r ->
  r ∈ l /\ forall v : Z, v ∈ l -> not_beaten l r v.
Proof.
  destruct l as [| x l']; simpl; [discriminate |].
  intros H. injection H as <-.
  pose proof (foldl_not_beaten (x :: l') (x :: l') [x] x) as H.
  cbv zeta in H. simpl foldl in H.
  destruct H as [Hin Hall].
  - apply list_elem_of_here.
  - intros v ->%list_elem_of_singleton. split; [lia | intros; lia].
  - split.
    + apply elem_of_app in Hin as [->%list_elem_of_singleton | Hin];
        [apply list_elem_of_here | exact Hin].
    + intros v Hv. apply (Hall v). apply elem_of_app. right. exact Hv.
Qed.

(** [np.bincount(l).argmax()] is the mode of [l]: a member of [l] that no
    value outnumbers, the least of those that occur as often; it raises
    [ValueError] on the empty list only. *)
Theorem bincount_argmax_mode (l : list Z) :
  match bincount_argmax l with
  | Return r =>
      r ∈ l /\
      (forall v : Z, (occurrences v l <= occurrences r l)%nat) /\
      (forall v : Z, v ∈ l -> occurrences v l = occurrences r l -> (r <= v)%Z)
  | Raise e => e = ValueError /\ l = []
  end.
Proof.
  destruct (bincount_argmax l) as [r | e] eqn:Hr.
  - destruct (bincount_argmax_Return l r Hr) as [Hin Hall].
    split; [exact Hin |]. split.
    + intros v. destruct (decide (v ∈ l)) as [Hv | Hv].
      * apply (Hall v Hv).
      * rewrite (occurrences_notin _ _ Hv). lia.
    + intros v Hv. apply (Hall v Hv).
  - destruct l as [| x l']; simpl in Hr; [| discriminate].
    injection Hr as <-. split; reflexivity.
Qed.

Lemma byte_px_bounds (r g b : Z) :
  byte_px (r, g, b) = true -> (0 <= r < 256)%Z /\ (0 <= g < 256)%Z /\ (0 <= b < 256)%Z.
Proof.
  unfold byte_px. rewrite !andb_true_iff, !Z.leb_le, !Z.ltb_lt. lia.
Qed.

(** On 8-bit pixels the quantisation is one to one. *)
Lemma encode_inj (p c : RGB) :
  byte_px p = true -> byte_px c = true -> encode p = encode c -> p = c.
Proof.
  destruct p as [[r g] b], c as [[r' g'] b']. intros Hp Hc He.
  apply byte_px_bounds in Hp as (Hr & Hg & Hb).
  apply byte_px_bounds in Hc as (Hr' & Hg' & Hb').
  pose proof (unravel_index_encode r g b Hr Hg Hb) as Hp.
  pose proof (unravel_index_encode r' g' b' Hr' Hg' Hb') as Hc.
  rewrite He, Hc in Hp. congruence.
Qed.

Lemma occurrences_encode (c : RGB) (l : list RGB) :
  byte_px c = true -> forallb byte_px l = true ->
  occurrences (encode c) (encode <$> l) = px_count c l.
Proof.
  intros Hc. unfold occurrences, px_count.
  induction l as [| p l IH]; [reflexivity |].
  simpl. intros [Hp Hl]%andb_prop. rewrite filter_cons.
  destruct (decide (p = c)) as [-> | Hne].
  - rewrite Z.eqb_refl. simpl. f_equal. apply IH, Hl.
  - destruct (Z.eqb_spec (encode c) (encode p)) as [He | _].
    + exfalso. apply Hne. apply encode_inj; [assumption | assumption | congruence].
    + apply IH, Hl.
Qed.

Lemma encode_unravel_round_trip_aux (p : RGB) :
  byte_px p = true ->
  (0 <= encode p < 256 * 256 * 256)%Z /\ unravel_index (encode p) = Return p.
Proof.
  destruct p as [[r g] b]. intros Hp. apply byte_px_bounds in Hp as (Hr & Hg & Hb).
  split; [unfold encode; lia | apply unravel_index_encode; assumption].
Qed.

(** The encode/decode round trip of [dominant_screen_color]: on 8-bit
    pixels ["a0*s0*s1+a1*s0+a2"] stays inside the cube that
    [np.unravel_index] accepts, is one to one, and is undone by
    [np.unravel_index]. *)
Theorem encode_unravel_round_trip (p c : RGB) :
  byte_px p = true ->
  byte_px c = true ->
  (0 <= encode p < 256 * 256 * 256)%Z /\
  unravel_index (encode p) = Return p /\
  (encode p = encode c -> p = c).
Proof.
  intros Hp Hc. destruct (encode_unravel_round_trip_aux p Hp) as [Hrange Hback].
  split; [exact Hrange |]. split; [exact Hback |].
  apply encode_inj; assumption.
Qed.

Lemma encode_unravel_round_trip_witness :
  (0 <= encode (255, 0, 128)%Z < 256 * 256 * 256)%Z /\
  unravel_index (encode (255, 0, 128)%Z) = Return (255, 0, 128)%Z /\
  (encode (255, 0, 128)%Z = encode (255, 128, 0)%Z -> (255, 0, 128)%Z = (255, 128, 0)%Z).
Proof.
  apply (encode_unravel_round_trip (255, 0, 128)%Z (255, 128, 0)%Z); reflexivity.
Defined.

(** [dominant_screen_color] returns the colour that occurs most often: when
    the capture and the resize go through and, in the downscaled 8-bit
    picture, the pixel [c] occurs more often than every other pixel, the
    result is the conversion of [c], with the kelvin of [initial_color]. *)
Theorem dominant_screen_color_most_frequent
  (DefaultMonitor : string) (str2list : string -> result (list Z))
  (grab_screen : result Image) (grab : Z -> Z -> Z -> Z -> result Image)
  (resize_HAMMING : Image -> Z -> Z -> result Image) (hsb : RGB -> Z * Z * Z)
  (initial_color : Color) (func_bounds : option string)
  (shot small : Image) (c : RGB) (kelvin : Z) :
  screenshot_of str2list grab_screen grab
    (get_monitor_bounds DefaultMonitor func_bounds) = Return shot ->
  resize_HAMMING shot (width shot / 4)%Z (height shot / 4)%Z = Return small ->
  forallb byte_px (pixels small) = true ->
  c ∈ pixels small ->
  Forall (fun px => px = c \/
                    (px_count px (pixels small) < px_count c (pixels small))%nat)
         (pixels small) ->
  initial_color !! 3%nat = Some kelvin ->
  dominant_screen_color DefaultMonitor str2list grab_screen grab resize_HAMMING hsb
    initial_color func_bounds = Return (RGBtoHSBK hsb c kelvin).
Proof.
  intros Hshot Hsmall Hbytes Hc Hdom Hk.
  assert (Hcb : byte_px c = true).
  { rewrite forallb_forall in Hbytes. apply Hbytes, list_elem_of_In, Hc. }
  unfold dominant_screen_color. rewrite Hshot. simpl. rewrite Hsmall. simpl.
  assert (Hce : encode c ∈ encode <$> pixels small).
  { apply list_elem_of_fmap. exists c. split; [reflexivity | exact Hc]. }
  destruct (bincount_argmax (encode <$> pixels small)) as [r | e] eqn:Hr.
  - destruct (bincount_argmax_Return _ _ Hr) as [Hin Hmax].
    apply list_elem_of_fmap in Hin as (p & -> & Hp).
    assert (Hpb : byte_px p = true).
    { rewrite forallb_forall in Hbytes. apply Hbytes, list_elem_of_In, Hp. }
    assert (p = c) as ->.
    { rewrite Forall_forall in Hdom. destruct (Hdom p Hp) as [-> | Hlt]; [reflexivity |].
      destruct (Hmax (encode c) Hce) as [Hle _].
      rewrite !occurrences_encode in Hle by assumption. lia. }
    simpl. destruct (encode_unravel_round_trip_aux c Hcb) as [_ ->]. simpl.
    rewrite (proj2 (getitem_Return initial_color 3 kelvin) Hk). reflexivity.
  - destruct (pixels small) as [| px rest]; [inversion Hc |].
    simpl in Hr. discriminate.
Qed.

Lemma dominant_screen_color_most_frequent_witness :
  dominant_screen_color "full" (fun _ => Raise ValueError) (Return sample_image)
    (fun _ _ _ _ => Raise OSError) sample_resize sample_hsb warm_white None
  = Return (RGBtoHSBK sample_hsb (4, 5, 6)%Z 2700%Z).
Proof.
  apply (dominant_screen_color_most_frequent "full" (fun _ => Raise ValueError)
           (Return sample_image) (fun _ _ _ _ => Raise OSError) sample_resize sample_hsb
           warm_white None sample_image sample_image (4, 5, 6)%Z 2700%Z).
  - reflexivity.
  - reflexivity.
  - reflexivity.
  - apply list_elem_of_further, list_elem_of_here.
  - repeat constructor; try (left; reflexivity); right; vm_compute; lia.
  - reflexivity.
Defined.

(** ** Thread objects under every event *)

Lemma iteration_lookup (t : Tick) (s : World) (n : nat) (th : ColorThread) :
  threads s !! n = Some th ->
  exists th' : ColorThread,
    threads (fst (iteration t s)) !! n = Some th' /\
    life th' = life th /\ (_stop th = true -> _stop th' = true).
Proof.
  intros Hn. destruct (iteration_threads t s) as [-> | ->].
  - exists th. repeat split; [exact Hn | auto].
  - rewrite list_lookup_alter. destruct (decide (thread s = n)) as [He |].
    + rewrite He, Hn. exists (set_stop th). repeat split.
    + exists th. repeat split; [exact Hn | auto].
Qed.

Lemma relife_lookup (w n : nat) (g : stage) (s : World) (th : ColorThread) :
  threads s !! n = Some th ->
  threads (relife w g s) !! n = Some (if decide (w = n) then set_life g th else th).
Proof.
  intros Hn. unfold relife. simpl. rewrite list_lookup_alter.
  destruct (decide (w = n)) as [-> |]; [rewrite Hn; reflexivity | exact Hn].
Qed.

(** The life of a thread object: whatever the controller and the workers
    do, a thread object stays where it is in the store, a stop event that
    is set stays set, and the object moves only forward through not
    started, started, looping, over; once over it stays as it ended. *)
Theorem thread_life_cycle (ev : event) (s : World) (n : nat) (th : ColorThread) :
  threads s !! n = Some th ->
  exists th' : ColorThread,
    threads (exec ev s) !! n = Some th' /\
    (_stop th = true -> _stop th' = true) /\
    (stage_rank (life th) <= stage_rank (life th'))%nat /\
    (forall k : ending, life th = Exited k -> life th' = Exited k).
Proof.
  intros Hn.
  assert (Hsame : exists th' : ColorThread,
             threads s !! n = Some th' /\
             (_stop th = true -> _stop th' = true) /\
             (stage_rank (life th) <= stage_rank (life th'))%nat /\
             (forall k : ending, life th = Exited k -> life th' = Exited k)).
  { exists th. repeat split; auto. }
  destruct ev as [| | w parent_hsbk | w t]; simpl.
  - (* start() *)
    destruct (stopped (thread s) s) eqn:Hs.
    + rewrite (start_replaces _ Hs). simpl. exists th.
      rewrite (lookup_app_l_Some _ _ _ _ Hn). repeat split; auto.
    + destruct (threads s !! thread s) as [cur |] eqn:Hcur.
      * destruct (life cur) eqn:Hl.
        -- rewrite (start_first _ _ Hs Hcur Hl). simpl.
           destruct (decide (thread s = n)) as [<- |].
           ++ rewrite list_lookup_insert_eq by (eapply lookup_lt_Some; exact Hcur).
              assert (cur = th) as -> by congruence.
              exists (set_life Entered th). rewrite Hl. simpl.
              repeat split; [auto | lia | discriminate].
           ++ rewrite list_lookup_insert_ne by assumption. exact Hsame.
        -- rewrite start_again; [exact Hsame | eapply lookup_lt_Some; exact Hcur | exact Hs |].
           unfold life_of. rewrite Hcur, Hl. discriminate.
        -- rewrite start_again; [exact Hsame | eapply lookup_lt_Some; exact Hcur | exact Hs |].
           unfold life_of. rewrite Hcur, Hl. discriminate.
        -- rewrite start_again; [exact Hsame | eapply lookup_lt_Some; exact Hcur | exact Hs |].
           unfold life_of. rewrite Hcur, Hl. discriminate.
      * rewrite (start_stop_clear _ Hs).
        unfold try_except, bind at 1, gets at 1, bind at 1, Thread_start.
        rewrite Hcur. simpl. exact Hsame.
  - (* stop() *)
    rewrite list_lookup_alter. destruct (decide (thread s = n)) as [-> |].
    + rewrite Hn. exists (set_stop th). repeat split; auto.
    + exact Hsame.
  - (* a thread enters its target *)
    destruct (life_of w s) eqn:Hw; try exact Hsame.
    change (act w (enter parent_hsbk) s) with (relife w Looping (entered parent_hsbk s)).
    rewrite (relife_lookup w n Looping (entered parent_hsbk s) th Hn).
    destruct (decide (w = n)) as [-> |]; [| exists th; repeat split; auto].
    unfold life_of in Hw. rewrite Hn in Hw.
    exists (set_life Looping th). rewrite Hw. simpl.
    repeat split; [auto | lia | discriminate].
  - (* a thread takes a turn *)
    destruct (life_of w s) eqn:Hw; try exact Hsame.
    unfold act, turn. unfold bind at 1, gets at 1. unfold bind at 1, gets at 1.
    unfold life_of in Hw.
    destruct (stopped (thread s) s).
    + change ((logger DEBUG "Color match finished.";; ret Finished) s)
        with (finished s, @Return progress Finished). cbv iota beta.
      change (with_threads
                (alter (set_life (settle (Return Finished))) w (threads (finished s)))
                (finished s))
        with (relife w (Exited Returned) (finished s)).
      rewrite (relife_lookup w n (Exited Returned) (finished s) th Hn).
      destruct (decide (w = n)) as [-> |]; [| exists th; repeat split; auto].
      rewrite Hn in Hw. exists (set_life (Exited Returned) th). rewrite Hw. simpl.
      repeat split; [auto | lia | discriminate].
    + unfold bind at 1.
      destruct (iteration_lookup t s n th Hn) as (th1 & Hn1 & Hl1 & Hs1).
      destruct (iteration t s) as [s1 r]. simpl in Hn1.
      assert (Hgoal : exists th' : ColorThread,
                 threads (relife w (settle match r with
                                            | Return _ => Return Pending
                                            | Raise e => Raise e
                                            end) s1) !! n = Some th' /\
                 (_stop th = true -> _stop th' = true) /\
                 (stage_rank (life th) <= stage_rank (life th'))%nat /\
                 (forall k : ending, life th = Exited k -> life th' = Exited k)).
      { rewrite (relife_lookup _ _ _ _ th1) by exact Hn1.
        destruct (decide (w = n)) as [-> |].
        - rewrite Hn in Hw. eexists. split; [reflexivity |]. rewrite Hw. simpl.
          repeat split; [auto | | discriminate].
          destruct r as [[] | e]; simpl; lia.
        - exists th1. rewrite Hl1. repeat split; auto. }
      destruct r as [[] | e]; exact Hgoal.
Qed.

Lemma thread_life_cycle_witness :
  exists th' : ColorThread,
    threads (exec Start (fresh true)) !! 0%nat = Some th' /\
    (_stop new_ColorThread = true -> _stop th' = true) /\
    (stage_rank (life new_ColorThread) <= stage_rank (life th'))%nat /\
    (forall k : ending, life new_ColorThread = Exited k -> life th' = Exited k).
Proof.
  apply (thread_life_cycle Start (fresh true) 0 new_ColorThread). reflexivity.
Defined.

(** ** Stopping and starting again *)

Lemma filter_alive_alter (f : ColorThread -> ColorThread) (n : nat) (l : list ColorThread) :
  (forall x, alive (f x) = alive x) ->
  length (List.filter alive (alter f n l)) = length (List.filter alive l).
Proof.
  intros Hf. revert n. induction l as [| x l IH]; intros [| n]; simpl; try reflexivity.
  - rewrite Hf. destruct (alive x); reflexivity.
  - destruct (alive x); simpl; [f_equal |]; apply IH.
Qed.

Lemma stop_unfold (s : World) : stop s = (stop_set s, Return tt).
Proof. reflexivity. Qed.

(** [stop()] never raises, makes no call and ends no worker by itself; a
    second [stop()] changes nothing more; an Idle loop stays Idle and a
    running one becomes StopRequested. *)
Theorem stop_idempotent_and_safe (s : World) :
  well_formed s ->
  let s' := fst (stop s) in
  snd (stop s) = Return tt /\
  fst (stop s') = s' /\
  workers s' = workers s /\
  sent s' = sent s /\
  (forall n : nat, life_of n s' = life_of n s) /\
  loop_state s' = match loop_state s with
                  | Idle => Idle
                  | Running | StopRequested => StopRequested
                  end.
Proof.
  intros Hwf s'. subst s'. rewrite !stop_unfold. simpl fst. simpl snd.
  unfold well_formed in Hwf.
  split; [reflexivity |]. split; [| split; [| split; [| split]]].
  - unfold stop_set, with_threads. simpl. f_equal.
    rewrite list_alter_alter_eq. apply list_alter_ext; [| reflexivity].
    intros [] _. reflexivity.
  - unfold workers, stop_set. simpl. apply filter_alive_alter. intros []. reflexivity.
  - reflexivity.
  - intros n. unfold life_of, stop_set. simpl. rewrite list_lookup_alter.
    destruct (decide (thread s = n)) as [-> |]; [| reflexivity].
    destruct (threads s !! n); reflexivity.
  - unfold loop_state, stop_set. simpl. rewrite list_lookup_alter_eq.
    destruct (threads s !! thread s) as [th |] eqn:Hth;
      [| apply lookup_ge_None in Hth; lia].
    simpl. change (alive (set_stop th)) with (alive th).
    destruct (alive th); [destruct (_stop th) |]; reflexivity.
Qed.

Lemma stop_idempotent_and_safe_witness :
  let s' := fst (stop (started true)) in
  snd (stop (started true)) = Return tt /\
  fst (stop s') = s' /\
  workers s' = workers (started true) /\
  sent s' = sent (started true) /\
  (forall n : nat, life_of n s' = life_of n (started true)) /\
  loop_state s' = match loop_state (started true) with
                  | Idle => Idle
                  | Running | StopRequested => StopRequested
                  end.
Proof.
  apply (stop_idempotent_and_safe (started true)).
  unfold well_formed. simpl. lia.
Defined.

(** [stop()] reaches every worker: whichever looping worker tests its loop
    condition next, the current one or one left over from before a
    restart, it leaves the loop and ends without another call to the bulb
    and without touching [prev_color]. *)
Theorem stop_ends_every_worker (s : World) (w : nat) (t : Tick) :
  well_formed s ->
  life_of w s = Looping ->
  let s' := exec (Turn w t) (exec Stop s) in
  life_of w s' = Exited Returned /\
  sent s' = sent s /\
  prev_color s' = prev_color s.
Proof.
  intros Hwf Hw s'. subst s'.
  change (exec Stop s) with (stop_set s).
  assert (Hw' : life_of w (stop_set s) = Looping).
  { unfold life_of, stop_set in *. simpl. rewrite list_lookup_alter.
    destruct (decide (thread s = w)) as [He |]; [| exact Hw].
    rewrite He. destruct (threads s !! w) as [th |]; [exact Hw | discriminate]. }
  assert (Hlen : (w < length (threads (stop_set s)))%nat).
  { unfold life_of in Hw'. destruct (threads (stop_set s) !! w) eqn:E; [| discriminate].
    eapply lookup_lt_Some. exact E. }
  assert (Hturn : exec (Turn w t) (stop_set s)
                  = relife w (Exited Returned) (finished (stop_set s))).
  { simpl exec. rewrite Hw'. unfold act, turn.
    unfold bind at 1, gets at 1. unfold bind at 1, gets at 1.
    change (thread (stop_set s)) with (thread s).
    rewrite (stopped_stop_set s Hwf). reflexivity. }
  rewrite Hturn. split; [| split; reflexivity].
  unfold relife. apply life_of_settled. exact Hlen.
Qed.

Lemma stop_ends_every_worker_witness :
  let s := execs [Start; Enter 0 warm_white; Turn 0 steady_tick; Stop; Start;
                  Enter 1 warm_white] (fresh true) in
  let s' := exec (Turn 0 steady_tick) (exec Stop s) in
  life_of 0 s' = Exited Returned /\
  sent s' = sent s /\
  prev_color s' = prev_color s.
Proof.
  apply (stop_ends_every_worker
           (execs [Start; Enter 0 warm_white; Turn 0 steady_tick; Stop; Start;
                   Enter 1 warm_white] (fresh true)) 0 steady_tick).
  - unfold well_formed. simpl. lia.
  - reflexivity.
Defined.

(** [stop()] followed by [start()] always restarts: whatever the state, a
    fresh thread object becomes [self.thread], started and with its stop
    event clear, and the number of workers grows by one. *)
Theorem stop_then_start_restarts (s : World) :
  well_formed s ->
  let s' := execs [Stop; Start] s in
  thread s' = length (threads s) /\
  life_of (thread s') s' = Entered /\
  stopped (thread s') s' = false /\
  loop_state s' = Running /\
  workers s' = S (workers s).
Proof.
  intros Hwf s'. subst s'.
  change (execs [Stop; Start] s) with (fst (start (stop_set s))).
  rewrite (start_replaces (stop_set s) (stopped_stop_set s Hwf)). cbn [fst].
  assert (Hlen : length (threads (stop_set s)) = length (threads s)).
  { unfold stop_set. simpl. apply length_alter. }
  assert (Hlook : (threads (stop_set s) ++ [set_life Entered new_ColorThread])
                    !! length (threads s) = Some (set_life Entered new_ColorThread)).
  { rewrite lookup_app_r by lia. rewrite Hlen, Nat.sub_diag. reflexivity. }
  unfold life_of, stopped, loop_state, workers.
  cbn [thread threads with_log with_threads with_thread]. rewrite Hlen, Hlook.
  split; [reflexivity |]. split; [reflexivity |]. split; [reflexivity |].
  split; [reflexivity |].
  rewrite List.filter_app, length_app. unfold stop_set. cbn [threads with_threads].
  rewrite filter_alive_alter by (intros []; reflexivity). simpl. lia.
Qed.

Lemma stop_then_start_restarts_witness :
  let s' := execs [Stop; Start] (started true) in
  thread s' = length (threads (started true)) /\
  life_of (thread s') s' = Entered /\
  stopped (thread s') s' = false /\
  loop_state s' = Running /\
  workers s' = S (workers (started true)).
Proof.
  apply (stop_then_start_restarts (started true)).
  unfold well_formed. simpl. lia.
Defined.

(** The three ways through [start()]: a fresh thread object is built and
    started, the thread object at hand is started for the first time, or
    the [RuntimeError] of [Thread.start] is caught and logged. *)
Lemma start_cases (s : World) :
  (stopped (thread s) s = true /\
   start s =
   (with_log (log s ++ [(DEBUG, "Thread started.")])
      (with_threads (threads s ++ [set_life Entered new_ColorThread])
         (with_thread (length (threads s)) s)),
    Return tt)) \/
  (exists cur : ColorThread,
      threads s !! thread s = Some cur /\ life cur = Unstarted /\
      start s =
      (with_log (log s ++ [(DEBUG, "Thread started.")])
         (with_threads (<[thread s := set_life Entered cur]> (threads s)) s),
       Return tt)) \/
  start s = (start_refused s, Return tt).
Proof.
  destruct (stopped (thread s) s) eqn:Hs.
  - left. split; [reflexivity | apply start_replaces, Hs].
  - right. destruct (threads s !! thread s) as [cur |] eqn:Hcur.
    + destruct (life cur) eqn:Hl.
      * left. exists cur. split; [reflexivity |]. split; [exact Hl |].
        apply (start_first _ _ Hs Hcur Hl).
      * right. apply start_again; [eapply lookup_lt_Some; exact Hcur | exact Hs |].
        unfold life_of. rewrite Hcur, Hl. discriminate.
      * right. apply start_again; [eapply lookup_lt_Some; exact Hcur | exact Hs |].
        unfold life_of. rewrite Hcur, Hl. discriminate.
      * right. apply start_again; [eapply lookup_lt_Some; exact Hcur | exact Hs |].
        unfold life_of. rewrite Hcur, Hl. discriminate.
    + right. rewrite (start_stop_clear _ Hs).
      unfold try_except, bind at 1, gets at 1, bind at 1, Thread_start.
      rewrite Hcur. reflexivity.
Qed.

(** [start()] never raises: the [RuntimeError] of a second [Thread.start]
    is caught, and nothing else can go wrong in it.  It makes no call to
    the bulb, and it adds at most one worker and takes none away. *)
Theorem start_never_raises (s : World) :
  snd (start s) = Return tt /\
  sent (fst (start s)) = sent s /\
  prev_color (fst (start s)) = prev_color s /\
  (workers s <= workers (fst (start s)) <= S (workers s))%nat.
Proof.
  destruct (start_cases s) as [[_ ->] | [(cur & Hcur & Hl & ->) | ->]]; simpl.
  - repeat split.
    + unfold workers. simpl. rewrite List.filter_app, length_app. lia.
    + unfold workers. simpl. rewrite List.filter_app, length_app. simpl. lia.
  - assert (Hw : workers (with_log (log s ++ [(DEBUG, "Thread started.")])
                            (with_threads (<[thread s := set_life Entered cur]> (threads s)) s))
                 = S (workers s)).
    { unfold workers. simpl. apply (filter_alive_insert _ _ cur); try reflexivity.
      - exact Hcur.
      - unfold alive. now rewrite Hl. }
    rewrite Hw. repeat split; lia.
  - repeat split; unfold workers; simpl; lia.
Qed.

(** ** Every interleaving *)

Lemma execs_cons (ev : event) (evs : list event) (s : World) :
  execs (ev :: evs) s = execs evs (exec ev s).
Proof. reflexivity. Qed.

(** A turn of a looping thread, case by case. *)
Lemma exec_Turn_Looping (w : nat) (t : Tick) (s : World) :
  life_of w s = Looping ->
  exec (Turn w t) s =
  if stopped (thread s) s
  then relife w (Exited Returned) (finished s)
  else relife w (settle match snd (iteration t s) with
                        | Return _ => Return Pending
                        | Raise e => Raise e
                        end)
         (fst (iteration t s)).
Proof.
  intros Hw. simpl exec. rewrite Hw. unfold act, turn.
  unfold bind at 1, gets at 1. unfold bind at 1, gets at 1.
  destruct (stopped (thread s) s); [reflexivity |].
  unfold bind at 1. destruct (iteration t s) as [s1 [[] | e]]; reflexivity.
Qed.

(** One event adds to the calls at most what one pass adds, and only a turn
    adds any; it leaves [continuous] alone. *)
Lemma exec_sent (ev : event) (s : World) :
  continuous (exec ev s) = continuous s /\
  (sent (exec ev s) = sent s \/
   exists (w : nat) (t : Tick), ev = Turn w t /\ sent (exec ev s) = sent s ++ calls_of t s).
Proof.
  destruct ev as [| | w parent_hsbk | w t]; simpl.
  - destruct (start_cases s) as [[_ ->] | [(cur & _ & _ & ->) | ->]];
      (split; [reflexivity | left; reflexivity]).
  - split; [reflexivity | left; reflexivity].
  - destruct (life_of w s); split; try reflexivity; left; reflexivity.
  - destruct (life_of w s) eqn:Hw; try (split; [reflexivity | left; reflexivity]).
    pose proof (exec_Turn_Looping w t s Hw) as Hturn.
    simpl exec in Hturn. rewrite Hw in Hturn. rewrite Hturn.
    destruct (stopped (thread s) s).
    + split; [reflexivity | left; reflexivity].
    + split; [apply iteration_continuous |].
      right. exists w, t. split; [reflexivity | apply iteration_sent].
Qed.

(** Whatever the controller and the workers do, and in whatever order, in
    every world reached from a runner just built [self.thread] refers to a
    thread object, [continuous] is the constructor's argument, every call
    the bulb has received carries that argument as [rapid] and a
    brightness of at most 65535, and there are no more calls than turns
    taken. *)
Theorem reachable_worlds (parent_hsbk : Color) (continuous_arg : bool)
    (label : result string) (evs : list event) :
  let s := execs evs (__init__ parent_hsbk continuous_arg label) in
  well_formed s /\
  continuous s = continuous_arg /\
  Forall (fun call =>
            rapid call = continuous_arg /\
            exists v : Z, color call !! 2%nat = Some v /\ (v <= 65535)%Z)
         (sent s) /\
  (length (sent s) <= turns evs)%nat.
Proof.
  assert (Hgen : forall (evs : list event) (s0 : World),
             well_formed s0 ->
             continuous s0 = continuous_arg ->
             Forall (fun call =>
                       rapid call = continuous_arg /\
                       exists v : Z, color call !! 2%nat = Some v /\ (v <= 65535)%Z)
                    (sent s0) ->
             let s := execs evs s0 in
             well_formed s /\
             continuous s = continuous_arg /\
             Forall (fun call =>
                       rapid call = continuous_arg /\
                       exists v : Z, color call !! 2%nat = Some v /\ (v <= 65535)%Z)
                    (sent s) /\
             (length (sent s) <= length (sent s0) + turns evs)%nat).
  { clear evs. intros evs. induction evs as [| ev evs IH]; intros s0 Hwf Hk Hall.
    - simpl. repeat split; try assumption. lia.
    - cbv zeta. rewrite execs_cons.
      destruct (exec_sent ev s0) as [Hk1 Hsent].
      assert (Hall1 : Forall (fun call =>
                                rapid call = continuous_arg /\
                                exists v : Z, color call !! 2%nat = Some v /\ (v <= 65535)%Z)
                             (sent (exec ev s0))).
      { destruct Hsent as [-> | (w & t & _ & ->)]; [exact Hall |].
        apply Forall_app. split; [exact Hall |].
        apply Forall_forall. intros call Hc. split.
        - apply calls_of_elem in Hc as (c & d & _ & ->). simpl. exact Hk.
        - apply (pushed_brightness_bound t s0). exact Hc. }
      destruct (IH (exec ev s0) (well_formed_exec ev s0 Hwf) (eq_trans Hk1 Hk) Hall1)
        as (H1 & H2 & H3 & H4).
      repeat split; try assumption.
      assert (Hlen : (length (sent (exec ev s0)) + turns evs
                      <= length (sent s0) + turns (ev :: evs))%nat); [| lia].
      destruct Hsent as [-> | (w & t & -> & ->)].
      + unfold turns. simpl. destruct ev; simpl; lia.
      + rewrite length_app. unfold turns. simpl.
        assert (length (calls_of t s0) <= 1)%nat; [| lia].
        rewrite calls_of_cases. destruct (pushed t (prev_color s0)) as [[c d] | e]; simpl; lia. }
  intros s. subst s.
  destruct (Hgen evs (__init__ parent_hsbk continuous_arg label)) as (H1 & H2 & H3 & H4).
  - apply well_formed_init.
  - reflexivity.
  - constructor.
  - repeat split; assumption.
Qed.

(** ** How a worker ends *)


(** An exception that leaves a pass is not an [OSError]. *)
Lemma iteration_Raise (t : Tick) (s : World) (e : exn) :
  snd (iteration t s) = Raise e -> isinstance_OSError e = false.
Proof.
  rewrite iteration_cases.
  destruct (pushed t (prev_color s)) as [[c d] | e0].
  - cbv zeta. destruct (bulb_set_color t c d (continuous s)) as [e0 |].
    + destruct (isinstance_OSError e0) eqn:He; simpl; [discriminate |].
      intros H. injection H as <-. exact He.
    + simpl. discriminate.
  - destruct (isinstance_OSError e0) eqn:He; simpl; [discriminate |].
    intros H. injection H as <-. exact He.
Qed.





Lemma one_shot_loop_Finished (ticks : list Tick) (s : World) :
  continuous s = false ->
  well_formed s ->
  stopped (thread s) s = false ->
  snd (while_not_stopped ticks s) = Return Finished ->
  exists (refused : list set_color_call) (call : set_color_call),
    sent (fst (while_not_stopped ticks s)) = sent s ++ refused ++ [call] /\
    raised call = None /\
    Forall (fun c => exists e : exn, raised c = Some e /\ isinstance_OSError e = true)
           refused /\
    prev_color (fst (while_not_stopped ticks s)) = color call.
Proof.
  revert s. induction ticks as [| t ticks IH]; intros s Hk Hwf Hs Hfin.
  - rewrite (while_not_stopped_nil _ Hs) in Hfin. discriminate.
  - rewrite (while_not_stopped_cons _ _ _ Hs) in *.
    rewrite iteration_cases in *. rewrite Hk in *.
    destruct (pushed t (prev_color s)) as [[c d] | e].
    + cbv zeta in *. destruct (bulb_set_color t c d false) as [e |] eqn:Hb.
      * destruct (isinstance_OSError e) eqn:He; [| discriminate].
        destruct (IH (os_error_logged (with_sent (sent s ++ [call_to t c d false]) s))
                    Hk Hwf Hs Hfin) as (refused & call & Hsent & Hr & Hall & Hp).
        exists (call_to t c d false :: refused), call.
        rewrite Hsent. simpl. rewrite <- app_assoc. repeat split; try assumption.
        constructor; [| exact Hall]. exists e. split; [exact Hb | exact He].
      * rewrite while_not_stopped_halt.
        -- exists [], (call_to t c d false). simpl. repeat split; [exact Hb | constructor].
        -- match goal with
           | |- stopped _ (stop_set ?x) = true => apply (stopped_stop_set x)
           end. exact Hwf.
    + destruct (isinstance_OSError e); [| discriminate].
      destruct (IH (os_error_logged s) Hk Hwf Hs Hfin)
        as (refused & call & Hsent & Hr & Hall & Hp).
      exists refused, call. repeat split; assumption.
Qed.

(** How a one-shot worker comes to return.  Take a run of [match_color] in
    one-shot mode that is left alone (no [start()], no [stop()] and no other
    worker act during it) and that returns.  If the stop event of
    [self.thread] was already set when it was entered, it made no call and
    [prev_color] is what the parent frame reported at entry.  If the event
    was clear, the calls it made are some calls refused with an [OSError]
    followed by exactly one accepted call, the last, whose colour is the new
    [prev_color]: it then returned only after a push that the device
    accepted. *)
Theorem one_shot_return_after_stop_or_success
    (parent_hsbk : Color) (ticks : list Tick) (s : World) :
  continuous s = false ->
  well_formed s ->
  snd (match_color parent_hsbk ticks s) = Return Finished ->
  let s' := fst (match_color parent_hsbk ticks s) in
  if stopped (thread s) s
  then sent s' = sent s /\ prev_color s' = parent_hsbk
  else exists (refused : list set_color_call) (call : set_color_call),
         sent s' = sent s ++ refused ++ [call] /\
         raised call = None /\
         Forall (fun c => exists e : exn, raised c = Some e /\ isinstance_OSError e = true)
                refused /\
         prev_color s' = color call.
Proof.
  intros Hk Hwf. cbv zeta. rewrite match_color_unfold.
  destruct (stopped (thread s) s) eqn:Hs.
  - assert (Hs' : stopped (thread (entered parent_hsbk s)) (entered parent_hsbk s) = true)
      by exact Hs.
    rewrite (while_not_stopped_halt ticks _ Hs'). intros _. split; reflexivity.
  - pose proof (one_shot_loop_Finished ticks (entered parent_hsbk s) Hk Hwf Hs) as Hloop.
    destruct (while_not_stopped ticks (entered parent_hsbk s)) as [s1 [[] | e]];
      simpl in *; try discriminate.
    intros _. apply Hloop. reflexivity.
Qed.

Lemma one_shot_return_after_stop_or_success_witness :
  exists (refused : list set_color_call) (call : set_color_call),
    sent (fst (match_color warm_white [timeout_tick; steady_tick] (started false)))
      = sent (started false) ++ refused ++ [call] /\
    raised call = None /\
    Forall (fun c => exists e : exn, raised c = Some e /\ isinstance_OSError e = true)
           refused /\
    prev_color (fst (match_color warm_white [timeout_tick; steady_tick] (started false)))
      = color call.
Proof.
  apply (one_shot_return_after_stop_or_success warm_white [timeout_tick; steady_tick]
           (started false)).
  - reflexivity.
  - unfold well_formed. simpl. lia.
  - reflexivity.
Defined.

(** ** The baseline *)

Lemma last_accepted_app (p : Color) (a b : list set_color_call) :
  default p (last_accepted (a ++ b)) = default (default p (last_accepted a)) (last_accepted b).
Proof.
  unfold last_accepted. rewrite foldl_app.
  generalize (foldl (fun acc call => match raised call with
                                     | None => Some (color call)
                                     | Some _ => acc
                                     end) None a) as acc.
  intros acc.
  assert (Hgen : forall (l : list set_color_call) (x y : option Color),
             default p (foldl (fun acc call => match raised call with
                                               | None => Some (color call)
                                               | Some _ => acc
                                               end)
                              (match y with Some _ => y | None => x end) l)
             = default (default p x)
                 (foldl (fun acc call => match raised call with
                                         | None => Some (color call)
                                         | Some _ => acc
                                         end) y l)).
  { induction l as [| call l IH]; intros x y; simpl.
    - destruct y; reflexivity.
    - destruct (raised call).
      + apply IH.
      + apply (IH x (Some (color call))). }
  apply (Hgen b acc None).
Qed.

(** What a pass does to the baseline, in terms of its calls. *)
Lemma iteration_baseline (t : Tick) (s : World) :
  prev_color (fst (iteration t s)) = default (prev_color s) (last_accepted (calls_of t s)).
Proof.
  rewrite calls_of_cases, iteration_cases.
  destruct (pushed t (prev_color s)) as [[c d] | e].
  - cbv zeta. unfold last_accepted. simpl.
    destruct (bulb_set_color t c d (continuous s)) as [e |].
    + destruct (isinstance_OSError e); reflexivity.
    + destruct (continuous s); reflexivity.
  - destruct (isinstance_OSError e); reflexivity.
Qed.

Lemma while_not_stopped_baseline (ticks : list Tick) (s : World) :
  exists new : list set_color_call,
    sent (fst (while_not_stopped ticks s)) = sent s ++ new /\
    prev_color (fst (while_not_stopped ticks s))
    = default (prev_color s) (last_accepted new).
Proof.
  revert s. induction ticks as [| t ticks IH]; intros s.
  - exists []. rewrite app_nil_r.
    destruct (stopped (thread s) s) eqn:Hs.
    + rewrite (while_not_stopped_halt _ _ Hs). split; reflexivity.
    + rewrite (while_not_stopped_nil _ Hs). split; reflexivity.
  - destruct (stopped (thread s) s) eqn:Hs.
    + exists []. rewrite app_nil_r, (while_not_stopped_halt _ _ Hs). split; reflexivity.
    + rewrite (while_not_stopped_cons _ _ _ Hs).
      pose proof (iteration_sent t s) as Hsent.
      pose proof (iteration_baseline t s) as Hbase.
      destruct (iteration t s) as [s1 [[] | e]]; simpl in Hsent, Hbase.
      * destruct (IH s1) as (new & Hs1 & Hp1).
        exists (calls_of t s ++ new). rewrite Hs1, Hp1, Hsent, Hbase.
        split; [symmetry; apply app_assoc | symmetry; apply last_accepted_app].
      * exists (calls_of t s). simpl. split; assumption.
Qed.

(** The baseline of a worker left alone is the colour of its last accepted
    push.  Take a run of [match_color] during which nothing else acts (no
    [start()], no [stop()], no other worker), from any state and over any
    number of passes: afterwards [prev_color] is the colour of the latest
    call of this run that the device accepted, offset applied, or, when the
    run has no accepted call, the colour the parent frame reported when
    [match_color] was entered.  Refused calls never move it.  Runs that
    overlap, as after a [stop()] and a [start()] in quick succession, share
    [prev_color] and are outside this statement. *)
Theorem baseline_is_last_accepted (parent_hsbk : Color) (ticks : list Tick) (s : World) :
  exists new : list set_color_call,
    sent (fst (match_color parent_hsbk ticks s)) = sent s ++ new /\
    prev_color (fst (match_color parent_hsbk ticks s))
    = default parent_hsbk (last_accepted new).
Proof.
  rewrite match_color_unfold.
  destruct (while_not_stopped_baseline ticks (entered parent_hsbk s)) as (new & Hs & Hp).
  exists new.
  destruct (while_not_stopped ticks (entered parent_hsbk s)) as [s1 [[] | e]];
    simpl in *; split; assumption.
Qed.

(** ** The temperature over a run *)

(** Both samplers hand the kelvin of [initial_color] on. *)
Lemma sampler_tick_kelvin (t : Tick) (initial_color out : Color) :
  sampler_tick t ->
  color_function t initial_color = Return out ->
  exists kelvin : Z, initial_color !! 3%nat = Some kelvin /\ out !! 3%nat = Some kelvin.
Proof.
  intros (dm & s2l & gs & g & rz & hsb & fb & [Hf | Hf]) H; rewrite Hf in H.
  - unfold avg_screen_color in H.
    apply result_bind_Return in H as (screenshot & _ & H).
    apply result_bind_Return in H as (one & _ & H).
    apply result_bind_Return in H as (px & _ & H).
    apply result_bind_Return in H as (kelvin & Hk%getitem_Return & H).
    injection H as <-. exists kelvin.
    split; [exact Hk | apply RGBtoHSBK_temperature].
  - unfold dominant_screen_color in H.
    apply result_bind_Return in H as (screenshot & _ & H).
    apply result_bind_Return in H as (small & _ & H).
    apply result_bind_Return in H as (v & _ & H).
    apply result_bind_Return in H as (px & _ & H).
    apply result_bind_Return in H as (kelvin & Hk%getitem_Return & H).
    injection H as <-. exists kelvin.
    split; [exact Hk | apply RGBtoHSBK_temperature].
Qed.

Lemma iteration_kelvin (t : Tick) (s : World) (kelvin : Z) :
  sampler_tick t ->
  prev_color s !! 3%nat = Some kelvin ->
  Forall (fun call => color call !! 3%nat = Some kelvin) (calls_of t s) /\
  prev_color (fst (iteration t s)) !! 3%nat = Some kelvin.
Proof.
  intros Ht Hk.
  assert (Hpush : forall (c : Color) (d : float),
             pushed t (prev_color s) = Return (c, d) -> c !! 3%nat = Some kelvin).
  { intros c d Hp.
    apply pushed_Return in Hp as (sampled & b & o & secs & Hf & _ & _ & _ & -> & _).
    destruct (sampler_tick_kelvin t _ _ Ht Hf) as (k' & Hk1 & Hk2).
    unfold Color in *. rewrite list_lookup_insert_ne by discriminate. congruence. }
  rewrite calls_of_cases, iteration_cases.
  destruct (pushed t (prev_color s)) as [[c d] | e].
  - specialize (Hpush c d eq_refl). cbv zeta. split.
    + constructor; [exact Hpush | constructor].
    + destruct (bulb_set_color t c d (continuous s)) as [e |].
      * destruct (isinstance_OSError e); exact Hk.
      * destruct (continuous s); exact Hpush.
  - split; [constructor |]. destruct (isinstance_OSError e); exact Hk.
Qed.

Lemma while_not_stopped_kelvin (ticks : list Tick) (s : World) (kelvin : Z) :
  Forall sampler_tick ticks ->
  prev_color s !! 3%nat = Some kelvin ->
  exists new : list set_color_call,
    sent (fst (while_not_stopped ticks s)) = sent s ++ new /\
    Forall (fun call => color call !! 3%nat = Some kelvin) new /\
    prev_color (fst (while_not_stopped ticks s)) !! 3%nat = Some kelvin.
Proof.
  revert s. induction ticks as [| t ticks IH]; intros s Hall Hk.
  - exists []. rewrite app_nil_r.
    destruct (stopped (thread s) s) eqn:Hs.
    + rewrite (while_not_stopped_halt _ _ Hs). repeat split; [constructor | exact Hk].
    + rewrite (while_not_stopped_nil _ Hs). repeat split; [constructor | exact Hk].
  - destruct (stopped (thread s) s) eqn:Hs.
    + exists []. rewrite app_nil_r, (while_not_stopped_halt _ _ Hs).
      repeat split; [constructor | exact Hk].
    + rewrite (while_not_stopped_cons _ _ _ Hs).
      apply Forall_cons in Hall as [Ht Hall].
      destruct (iteration_kelvin t s kelvin Ht Hk) as [Hcalls Hk1].
      pose proof (iteration_sent t s) as Hsent.
      destruct (iteration t s) as [s1 [[] | e]]; simpl in Hsent, Hk1.
      * destruct (IH s1 Hall Hk1) as (new & Hs1 & Hnew & Hp1).
        exists (calls_of t s ++ new). rewrite Hs1, Hsent.
        split; [symmetry; apply app_assoc |]. split; [| exact Hp1].
        apply Forall_app. split; assumption.
      * exists (calls_of t s). simpl. repeat split; assumption.
Qed.

(** The temperature does not drift while a worker is left alone.  Take a
    run of [match_color] during which nothing else acts (no [start()], no
    [stop()], no other worker), whose colour function is one of the two
    samplers on every pass, and whose parent frame reported a colour with a
    kelvin at index 3 on entry: every [set_color] call of the run carries
    that kelvin at index 3, and so does [prev_color] afterwards, whatever
    the screen showed and whatever the device answered.  Runs that
    overlap, as after a [stop()] and a [start()] in quick succession, share
    [prev_color] and are outside this statement. *)
Theorem run_keeps_kelvin
    (parent_hsbk : Color) (ticks : list Tick) (s : World) (kelvin : Z) :
  parent_hsbk !! 3%nat = Some kelvin ->
  Forall sampler_tick ticks ->
  exists new : list set_color_call,
    sent (fst (match_color parent_hsbk ticks s)) = sent s ++ new /\
    Forall (fun call => color call !! 3%nat = Some kelvin) new /\
    prev_color (fst (match_color parent_hsbk ticks s)) !! 3%nat = Some kelvin.
Proof.
  intros Hk Hall. rewrite match_color_unfold.
  destruct (while_not_stopped_kelvin ticks (entered parent_hsbk s) kelvin Hall Hk)
    as (new & Hs & Hnew & Hp).
  exists new.
  destruct (while_not_stopped ticks (entered parent_hsbk s)) as [s1 [[] | e]];
    simpl in *; repeat split; assumption.
Qed.

Lemma run_keeps_kelvin_witness :
  exists new : list set_color_call,
    sent (fst (match_color warm_white [dominant_tick; dominant_tick] (started true)))
      = sent (started true) ++ new /\
    Forall (fun call => color call !! 3%nat = Some 2700%Z) new /\
    prev_color (fst (match_color warm_white [dominant_tick; dominant_tick] (started true)))
      !! 3%nat = Some 2700%Z.
Proof.
  apply (run_keeps_kelvin warm_white [dominant_tick; dominant_tick] (started true) 2700%Z).
  - reflexivity.
  - assert (Hd : sampler_tick dominant_tick).
    { exists "full", (fun _ => Raise ValueError), (Return sample_image),
        (fun _ _ _ _ => Raise OSError), sample_resize, sample_hsb, None.
      right. intros initial_color. reflexivity. }
    repeat constructor; exact Hd.
Defined.

(** ** The ways a worker can end *)




(** ** The cache in front of [get_monitor_bounds] *)

Lemma cache_find_rank (key : nat) (cache : list (nat * string)) :
  cache_find key cache = snd <$> cache_rank key cache.
Proof.
  induction cache as [| [k v] cache IH]; simpl; [reflexivity |].
  destruct (decide (k = key)); [reflexivity |].
  rewrite IH. destruct (cache_rank key cache) as [[i v'] |]; reflexivity.
Qed.

Lemma cache_rank_lt (key : nat) (cache : list (nat * string)) (i : nat) (v : string) :
  cache_rank key cache = Some (i, v) -> (i < length cache)%nat.
Proof.
  revert i. induction cache as [| [k v0] cache IH]; intros i; simpl; [discriminate |].
  destruct (decide (k = key)).
  - intros H. injection H as <- _. lia.
  - destruct (cache_rank key cache) as [[j v'] |]; [| discriminate].
    intros H. injection H as <- <-. specialize (IH j eq_refl). lia.
Qed.

Lemma cache_rank_take (key : nat) (cache : list (nat * string)) (n i : nat) (v : string) :
  cache_rank key cache = Some (i, v) -> (i < n)%nat ->
  cache_rank key (take n cache) = Some (i, v).
Proof.
  revert n i. induction cache as [| [k v0] cache IH]; intros n i; simpl; [discriminate |].
  destruct n as [| n]; [lia |]. simpl.
  destruct (decide (k = key)); [intros; assumption |].
  destruct (cache_rank key cache) as [[j v'] |] eqn:Hr; [| discriminate].
  intros H Hi. injection H as <- <-. rewrite (IH n j eq_refl); [reflexivity | lia].
Qed.

Lemma cache_rank_without (key other : nat) (cache : list (nat * string)) (i : nat) (v : string) :
  other <> key ->
  cache_rank key cache = Some (i, v) ->
  exists j : nat, (j <= i)%nat /\ cache_rank key (cache_without other cache) = Some (j, v).
Proof.
  intros Hne. revert i. induction cache as [| [k v0] cache IH]; intros i; simpl; [discriminate |].
  destruct (decide (k = key)) as [-> | Hk].
  - intros H. injection H as <- <-.
    destruct (Nat.eqb_spec key other) as [-> |]; [contradiction |]. simpl.
    destruct (decide (key = key)); [| contradiction]. exists 0%nat. split; [lia | reflexivity].
  - destruct (cache_rank key cache) as [[j v'] |] eqn:Hr; [| discriminate].
    intros H. injection H as <- <-.
    destruct (IH j eq_refl) as (j' & Hj & Hr').
    destruct (Nat.eqb_spec k other) as [-> |]; simpl.
    + exists j'. split; [lia | exact Hr'].
    + destruct (decide (k = key)); [contradiction |].
      rewrite Hr'. exists (S j'). split; [lia | reflexivity].
Qed.

(** A call for another function pushes an entry back by at most one
    place. *)
Lemma cache_rank_other (call : lookup_call) (key : nat) (cache : list (nat * string))
    (i : nat) (v : string) :
  call_key call <> key ->
  cache_rank key cache = Some (i, v) ->
  (S i < maxsize)%nat ->
  exists j : nat,
    (j <= S i)%nat /\
    cache_rank key (fst (get_monitor_bounds_cached (call_default call) (call_key call)
                           (call_func call) cache)) = Some (j, v).
Proof.
  intros Hne Hr Hi. unfold get_monitor_bounds_cached.
  destruct (cache_find (call_key call) cache) as [v' |].
  - simpl. destruct (decide (call_key call = key)); [contradiction |].
    destruct (cache_rank_without key (call_key call) cache i v Hne Hr) as (j & Hj & ->).
    exists (S j). split; [lia | reflexivity].
  - cbv zeta. cbn [fst]. exists (S i). split; [lia |].
    apply cache_rank_take; [| exact Hi].
    simpl. destruct (decide (call_key call = key)); [contradiction |].
    rewrite Hr. reflexivity.
Qed.

Lemma cache_rank_others (others : list lookup_call) (key : nat)
    (cache : list (nat * string)) (i : nat) (v : string) :
  Forall (fun call => call_key call <> key) others ->
  cache_rank key cache = Some (i, v) ->
  (i + length others < maxsize)%nat ->
  exists j : nat,
    (j <= i + length others)%nat /\
    cache_rank key (cache_after others cache) = Some (j, v).
Proof.
  revert cache i. induction others as [| call others IH]; intros cache i Hall Hr Hi.
  - exists i. simpl. split; [lia | exact Hr].
  - apply Forall_cons in Hall as [Hne Hall]. simpl in Hi.
    destruct (cache_rank_other call key cache i v Hne Hr) as (j & Hj & Hr'); [lia |].
    destruct (IH _ j Hall Hr') as (j' & Hj' & Hr''); [lia |].
    exists j'. split; [simpl; lia | exact Hr''].
Qed.

(** The cache serves stale bounds.  Once [get_monitor_bounds] has been
    called with a function, a later call with the same function returns the
    result of the first call, whatever the function would return now and
    whatever [DefaultMonitor] the configuration holds now, as long as at
    most 31 calls with other functions came in between. *)
Theorem get_monitor_bounds_stale
    (first again : lookup_call) (others : list lookup_call) (cache : list (nat * string)) :
  call_key again = call_key first ->
  Forall (fun call => call_key call <> call_key first) others ->
  (length others < maxsize)%nat ->
  let r1 := get_monitor_bounds_cached (call_default first) (call_key first)
              (call_func first) cache in
  let r2 := get_monitor_bounds_cached (call_default again) (call_key again)
              (call_func again) (cache_after others (fst r1)) in
  snd r2 = snd r1.
Proof.
  intros Hkey Hall Hlen r1 r2.
  assert (H0 : cache_rank (call_key first) (fst r1) = Some (0%nat, snd r1)).
  { subst r1. unfold get_monitor_bounds_cached.
    destruct (cache_find (call_key first) cache) as [v |]; simpl;
      destruct (decide (call_key first = call_key first)); try reflexivity; contradiction. }
  destruct (cache_rank_others others _ _ _ _ Hall H0) as (j & _ & Hr); [simpl; lia |].
  subst r2. unfold get_monitor_bounds_cached at 1.
  rewrite Hkey, cache_find_rank, Hr. reflexivity.
Qed.

Lemma get_monitor_bounds_stale_witness :
  let first := {| call_default := "full"; call_key := 7; call_func := None |} in
  let again := {| call_default := "0, 0, 800, 600"; call_key := 7;
                  call_func := Some "10, 10, 20, 20" |} in
  let others := [{| call_default := "full"; call_key := 8; call_func := Some "1, 2, 3, 4" |}] in
  let r1 := get_monitor_bounds_cached (call_default first) (call_key first)
              (call_func first) [] in
  let r2 := get_monitor_bounds_cached (call_default again) (call_key again)
              (call_func again) (cache_after others (fst r1)) in
  snd r2 = snd r1.
Proof.
  apply (get_monitor_bounds_stale
           {| call_default := "full"; call_key := 7; call_func := None |}
           {| call_default := "0, 0, 800, 600"; call_key := 7;
              call_func := Some "10, 10, 20, 20" |}
           [{| call_default := "full"; call_key := 8; call_func := Some "1, 2, 3, 4" |}]
           []).
  - reflexivity.
  - repeat constructor. simpl. discriminate.
  - unfold maxsize. simpl. lia.
Defined.

Lemma cache_find_None (key : nat) (cache : list (nat * string)) :
  cache_find key cache = None -> key ∉ fst <$> cache.
Proof.
  induction cache as [| [k v] cache IH]; simpl; intros H.
  - apply not_elem_of_nil.
  - destruct (decide (k = key)) as [| Hne]; [discriminate |].
    apply not_elem_of_cons. split; [congruence | apply IH, H].
Qed.

Lemma cache_without_keys (key : nat) (cache : list (nat * string)) :
  (key ∉ fst <$> cache_without key cache) /\
  ((fst <$> cache_without key cache) `sublist_of` (fst <$> cache)).
Proof.
  induction cache as [| [k v] cache [IH1 IH2]]; simpl.
  - split; [apply not_elem_of_nil | constructor].
  - destruct (Nat.eqb_spec k key) as [-> | Hne]; simpl.
    + split; [exact IH1 | apply sublist_cons, IH2].
    + split; [| apply sublist_skip, IH2].
      apply not_elem_of_cons. split; [congruence | exact IH1].
Qed.

Lemma cache_without_length (key : nat) (cache : list (nat * string)) (v : string) :
  cache_find key cache = Some v ->
  (length (cache_without key cache) < length cache)%nat.
Proof.
  induction cache as [| [k v0] cache IH]; simpl; [discriminate |].
  destruct (decide (k = key)) as [-> | Hne].
  - intros _. rewrite Nat.eqb_refl. simpl.
    assert (length (cache_without key cache) <= length cache)%nat; [| lia].
    unfold cache_without. apply List.filter_length_le.
  - intros H. specialize (IH H).
    destruct (Nat.eqb_spec k key); [contradiction |]. simpl. lia.
Qed.

(** The cache keeps within its bound: whatever calls are made, it never
    holds more than 32 entries and never two for the same function. *)
Theorem get_monitor_bounds_cache_bounded (calls : list lookup_call) :
  (length (cache_after calls []) <= maxsize)%nat /\
  NoDup (fst <$> cache_after calls []).
Proof.
  assert (Hgen : forall (calls : list lookup_call) (cache : list (nat * string)),
             (length cache <= maxsize)%nat -> NoDup (fst <$> cache) ->
             (length (cache_after calls cache) <= maxsize)%nat /\
             NoDup (fst <$> cache_after calls cache)).
  { clear calls. intros calls. induction calls as [| call calls IH]; intros cache Hlen Hnd.
    - split; assumption.
    - simpl. apply IH.
      + unfold get_monitor_bounds_cached.
        destruct (cache_find (call_key call) cache) as [v |] eqn:Hf.
        * simpl. pose proof (cache_without_length _ _ _ Hf). lia.
        * cbv zeta. cbn [fst]. rewrite length_take. lia.
      + unfold get_monitor_bounds_cached.
        destruct (cache_find (call_key call) cache) as [v |] eqn:Hf.
        * simpl. destruct (cache_without_keys (call_key call) cache) as [Hnot Hsub].
          apply NoDup_cons. split; [exact Hnot |].
          exact (sublist_NoDup _ _ Hnd Hsub).
        * cbv zeta. cbn [fst]. rewrite fmap_take.
          refine (sublist_NoDup _ _ _ (sublist_take _ _)).
          simpl. apply NoDup_cons. split; [apply cache_find_None, Hf | exact Hnd]. }
  apply Hgen; [simpl; lia | constructor].
Qed.

(** ** A restart that overtakes the worker *)

(** A restart can leave the old worker running.  When [stop()] and
    [start()] follow each other before the looping worker has tested its
    loop condition, that worker is not stopped although the stop event of
    its own thread object is set: the test reads the new [self.thread], so
    its next turn is a full pass beside the new worker, and it does not
    return. *)
Theorem restart_leaves_old_worker_running (s : World) (t : Tick) :
  well_formed s ->
  life_of (thread s) s = Looping ->
  let w := thread s in
  let s1 := execs [Stop; Start] s in
  let s2 := exec (Turn w t) s1 in
  stopped w s1 = true /\
  life_of (thread s1) s1 = Entered /\
  sent s2 = sent s ++ calls_of t s1 /\
  (life_of w s2 = Looping \/
   exists e : exn,
     isinstance_OSError e = false /\
     life_of w s2 = Exited (if isinstance_exit e then Reraised e else Excepthook e)).
Proof.
  intros Hwf Hl w s1 s2. unfold well_formed in Hwf.
  assert (Hs1 : s1 = with_log (log (stop_set s) ++ [(DEBUG, "Thread started.")])
                       (with_threads (threads (stop_set s) ++ [set_life Entered new_ColorThread])
                          (with_thread (length (threads (stop_set s))) (stop_set s)))).
  { subst s1. change (execs [Stop; Start] s) with (fst (start (stop_set s))).
    rewrite (start_replaces (stop_set s) (stopped_stop_set s Hwf)). reflexivity. }
  assert (Hlen : length (threads (stop_set s)) = length (threads s)).
  { unfold stop_set. simpl. apply length_alter. }
  destruct (threads s !! thread s) as [th |] eqn:Hth;
    [| apply lookup_ge_None in Hth; lia].
  assert (Hlth : life th = Looping).
  { unfold life_of in Hl. rewrite Hth in Hl. exact Hl. }
  assert (Hold : threads s1 !! w = Some (set_stop th)).
  { rewrite Hs1. cbn [threads with_log with_threads].
    rewrite lookup_app_l by (rewrite Hlen; exact Hwf).
    unfold stop_set. cbn [threads with_threads].
    rewrite list_lookup_alter_eq. subst w. rewrite Hth. reflexivity. }
  assert (Hnew : threads s1 !! thread s1 = Some (set_life Entered new_ColorThread)).
  { rewrite Hs1. cbn [thread threads with_log with_threads with_thread].
    rewrite lookup_app_r by lia. rewrite Nat.sub_diag. reflexivity. }
  assert (Hw1 : life_of w s1 = Looping).
  { unfold life_of. rewrite Hold. exact Hlth. }
  assert (Hclear : stopped (thread s1) s1 = false).
  { unfold stopped. rewrite Hnew. reflexivity. }
  assert (Hturn : s2 = relife w (settle match snd (iteration t s1) with
                                        | Return _ => Return Pending
                                        | Raise e => Raise e
                                        end) (fst (iteration t s1))).
  { subst s2. rewrite (exec_Turn_Looping w t s1 Hw1), Hclear. reflexivity. }
  split; [| split; [| split]].
  - unfold stopped. rewrite Hold. reflexivity.
  - unfold life_of. rewrite Hnew. reflexivity.
  - rewrite Hturn. unfold relife. cbn [sent with_threads].
    rewrite iteration_sent. f_equal. rewrite Hs1. reflexivity.
  - assert (Hw2 : (w < length (threads (fst (iteration t s1))))%nat).
    { destruct (iteration_life w t s1) as [_ ->]. eapply lookup_lt_Some. exact Hold. }
    rewrite Hturn. unfold relife. rewrite life_of_settled by exact Hw2.
    pose proof (iteration_Raise t s1) as Hr.
    destruct (snd (iteration t s1)) as [[] | e]; [left; reflexivity |].
    right. exists e. split; [apply Hr; reflexivity | reflexivity].
Qed.

Lemma restart_leaves_old_worker_running_witness :
  let s := execs [Start; Enter 0 warm_white] (fresh true) in
  let w := thread s in
  let s1 := execs [Stop; Start] s in
  let s2 := exec (Turn w steady_tick) s1 in
  stopped w s1 = true /\
  life_of (thread s1) s1 = Entered /\
  sent s2 = sent s ++ calls_of steady_tick s1 /\
  (life_of w s2 = Looping \/
   exists e : exn,
     isinstance_OSError e = false /\
     life_of w s2 = Exited (if isinstance_exit e then Reraised e else Excepthook e)).
Proof.
  apply (restart_leaves_old_worker_running
           (execs [Start; Enter 0 warm_white] (fresh true)) steady_tick).
  - unfold well_formed. simpl. lia.
  - reflexivity.
Defined.
